(** * Native-gate synthesis of small unitaries (cirq/circuits/util.py)

    A shallow embedding of [cirq.circuits.util]: the single-qubit ZYZ angle
    deconstruction, its normalisation into gate turns, the synthesis of one-
    and two-qubit matrices and of controlled operations into XY/Z/CZ gates.

    Python floats are read as real numbers ([R]) and Python complex numbers
    as pairs of reals, so every statement below is about exact arithmetic.
    The functions of [math], [cmath] and [numpy] that the module calls are
    given their mathematical meaning; the collaborators that live in other
    modules of the package ([cirq.ops], [cirq.linalg]) and [numpy.linalg.eig]
    are parameters of the development. *)

From Stdlib Require Import Reals Lra Lia List ZArith Bool RNsatz.
Import ListNotations.

Local Open Scope R_scope.

(** ** Python numbers *)

(** [x % y] on floats: the remainder of floored division, with the sign of
    the divisor ([y] is never zero in this module: it is always [1]). *)
Definition float_mod (x y : R) : R := x - y * IZR (Int_part (x / y)).

(** [a > b], [a >= b], [a < b] and [a <= b] on floats. *)
Definition Rgtb (a b : R) : bool := if Rlt_dec b a then true else false.
Definition Rgeb (a b : R) : bool := if Rle_dec b a then true else false.
Definition Rltb (a b : R) : bool := if Rlt_dec a b then true else false.
Definition Rleb (a b : R) : bool := if Rle_dec a b then true else false.

(** Complex numbers, as [complex] stores them: real and imaginary part. *)
Definition C : Type := (R * R)%type.

Definition RtoC (x : R) : C := (x, 0).
Definition Ci : C := (0, 1).
Definition Cplus (z w : C) : C := (fst z + fst w, snd z + snd w).
Definition Copp (z : C) : C := (- fst z, - snd z).
Definition Cminus (z w : C) : C := Cplus z (Copp w).
Definition Cmult (z w : C) : C :=
  (fst z * fst w - snd z * snd w, fst z * snd w + snd z * fst w).
Definition Cconj (z : C) : C := (fst z, - snd z).
Definition Cnorm2 (z : C) : R := fst z * fst z + snd z * snd z.
(** [abs(z)] *)
Definition Cmod (z : C) : R := sqrt (Cnorm2 z).
Definition Cinv (z : C) : C := (fst z / Cnorm2 z, - snd z / Cnorm2 z).
Definition Cdiv (z w : C) : C := Cmult z (Cinv w).
(** [np.exp(1j * angle)] *)
Definition Cexp (angle : R) : C := (cos angle, sin angle).

Declare Scope C_scope.
Delimit Scope C_scope with C.
Bind Scope C_scope with C.
Infix "+" := Cplus : C_scope.
Infix "-" := Cminus : C_scope.
Infix "*" := Cmult : C_scope.
Infix "/" := Cdiv : C_scope.
Notation "- z" := (Copp z) : C_scope.

(** [math.atan2(y, x)]: the angle in (-pi, pi] of the point [(x, y)], and [0]
    at the origin. *)
Definition atan2 (y x : R) : R :=
  if Rlt_dec 0 x then atan (y / x)
  else if Rlt_dec x 0 then
    if Rle_dec 0 y then atan (y / x) + PI else atan (y / x) - PI
  else if Rlt_dec 0 y then PI / 2
  else if Rlt_dec y 0 then - (PI / 2)
  else 0.

(** [cmath.phase(z)] *)
Definition phase (z : C) : R := atan2 (snd z) (fst z).

(** ** 2x2 complex matrices ([np.matrix]) *)

Record mat2 : Type := Mat2 { m00 : C; m01 : C; m10 : C; m11 : C }.

(** [np.dot(a, b)] *)
Definition dot (a b : mat2) : mat2 :=
  {| m00 := (m00 a * m00 b + m01 a * m10 b)%C;
     m01 := (m00 a * m01 b + m01 a * m11 b)%C;
     m10 := (m10 a * m00 b + m11 a * m10 b)%C;
     m11 := (m10 a * m01 b + m11 a * m11 b)%C |}.

(** [m.H]: the conjugate transpose. *)
Definition adjoint (a : mat2) : mat2 :=
  {| m00 := Cconj (m00 a); m01 := Cconj (m10 a);
     m10 := Cconj (m01 a); m11 := Cconj (m11 a) |}.

Definition scale (g : C) (a : mat2) : mat2 :=
  {| m00 := (g * m00 a)%C; m01 := (g * m01 a)%C;
     m10 := (g * m10 a)%C; m11 := (g * m11 a)%C |}.

Definition I2 : mat2 :=
  {| m00 := RtoC 1; m01 := RtoC 0; m10 := RtoC 0; m11 := RtoC 1 |}.

(** The spec's invariant of a Unitary2: [U * U^dagger = I]. *)
Definition unitary (u : mat2) : Prop := dot u (adjoint u) = I2.

(** Equality up to a global phase: [a = g * b] for a unit-magnitude [g]. *)
Definition up_to_phase (a b : mat2) : Prop :=
  exists g : C, Cnorm2 g = 1 /\ a = scale g b.

(** ** The module's helpers *)

Definition _signed_mod_1 (x : R) : R := float_mod (x + 0.5) 1 - 0.5.

Definition is_negligible_turn (turns tolerance : R) : bool :=
  Rltb (Rabs (_signed_mod_1 turns)) tolerance.

(** [np.mat(np.diag([1, np.exp(1j * angle)]))] *)
Definition _phase_matrix (angle : R) : mat2 :=
  {| m00 := RtoC 1; m01 := RtoC 0; m10 := RtoC 0; m11 := Cexp angle |}.

Definition _rotation_matrix (angle : R) : mat2 :=
  let c := cos angle in
  let s := sin angle in
  {| m00 := RtoC c; m01 := RtoC (- s); m10 := RtoC s; m11 := RtoC c |}.

Definition _deconstruct_single_qubit_matrix_into_angles (mat : mat2)
  : R * R * R :=
  (* Anti-cancel left-vs-right phase along top row. *)
  let right_phase := phase (m01 mat * Cconj (m00 mat)) + PI in
  let mat := dot mat (_phase_matrix (- right_phase)) in
  (* Cancel top-vs-bottom phase along left column. *)
  let bottom_phase := phase (m10 mat * Cconj (m00 mat)) in
  let mat := dot (_phase_matrix (- bottom_phase)) mat in
  (* Lined up for a rotation. Clear the off-diagonal cells with one. *)
  let rotation := atan2 (Cmod (m10 mat)) (Cmod (m00 mat)) in
  let mat := dot (_rotation_matrix (- rotation)) mat in
  (* Cancel top-left-vs-bottom-right phase. *)
  let diagonal_phase := phase (m11 mat * Cconj (m00 mat)) in
  (right_phase + diagonal_phase, rotation, bottom_phase).

Definition _deconstruct_single_qubit_matrix_into_gate_turns (mat : mat2)
  : R * R * R :=
  let '(pre_phase, rotation, post_phase) :=
    _deconstruct_single_qubit_matrix_into_angles mat in
  let tau := 2 * PI in
  let xy_turn := 2 * rotation / tau in
  let xy_phase_turn := 0.25 - pre_phase / tau in
  let total_z_turn := (post_phase + pre_phase) / tau in
  (_signed_mod_1 xy_turn, _signed_mod_1 xy_phase_turn,
   _signed_mod_1 total_z_turn).

(** ** Gates and operations ([cirq.ops])

    The gate classes are not part of this module; a gate is represented by
    the constructor call or the expression that builds it. *)

Module ops.

(** What [single_qubit_matrix_to_native_gates] returns: [ops.XYGate(turns=..,
    axis_phase_turns=..)] and [ops.ZGate(turns)]. *)
Inductive NativeGate : Type :=
| XYGate (turns axis_phase_turns : R)
| ZGate (turns : R).

(** A gate expression: a native gate, one of the constants [ops.CZ], [ops.X],
    [ops.Y], [ops.Z], a power [g ** e] or [g.inverse()]. *)
Inductive Gate : Type :=
| Native (g : NativeGate)
| CZ
| X
| Y
| Z
| Pow (g : Gate) (exponent : R)
| Inverse (g : Gate).

End ops.

(** [isinstance(g, ops.ZGate)] *)
Definition is_ZGate (g : ops.NativeGate) : bool :=
  match g with
  | ops.ZGate _ => true
  | ops.XYGate _ _ => false
  end.

(** What a Python call may do besides returning: [l[-1]] and [del l[-1]]
    raise [IndexError] on an empty list. *)
Inductive exn : Type := IndexError.

Inductive outcome (A : Type) : Type :=
| Returns (a : A)
| Raises (e : exn).
Arguments Returns {A} a.
Arguments Raises {A} e.

Definition bind {A B : Type} (m : outcome A) (k : A -> outcome B) : outcome B :=
  match m with
  | Returns a => k a
  | Raises e => Raises e
  end.

Notation "x <- m ;; k" := (bind m (fun x => k))
  (at level 61, m at next level, right associativity).

(** [l[-1]] *)
Definition item_last {A : Type} (l : list A) : outcome A :=
  match rev l with
  | x :: _ => Returns x
  | [] => Raises IndexError
  end.

(** [del l[-1]], returning the list it leaves. *)
Definition del_last {A : Type} (l : list A) : outcome (list A) :=
  match l with
  | [] => Raises IndexError
  | _ :: _ => Returns (removelast l)
  end.

(** The truth value of a list: non-empty. *)
Definition truthy {A : Type} (l : list A) : bool :=
  match l with
  | [] => false
  | _ :: _ => true
  end.

(** A 4x4 matrix, by rows; this module only hands it to [kak_decomposition]. *)
Definition mat4 : Type := list (list C).

#[local] Set Warnings "-register-all".

Section Synthesis.

(** Qubit handles are opaque. *)
Variable QubitId : Type.

(** [g.trace_distance_bound()], a method of the absent gate classes. *)
Variable trace_distance_bound : ops.NativeGate -> R.

(** [np.linalg.eig(mat)]: the eigenvalues [(vals[0], vals[1])] and the matrix
    whose columns are the eigenvectors. *)
Variable eig : mat2 -> (C * C) * mat2.

(** [linalg.kak_decomposition(mat, linalg.Tolerance(atol=tolerance))]: a global
    phase, [(a1, a0)], [(x, y, z)] and [(b1, b0)]. *)
Variable kak_decomposition :
  mat4 -> R -> C * (mat2 * mat2) * (R * R * R) * (mat2 * mat2).

(** An operation: a gate on qubits ([gate(q)], [gate.on(q0, q1)]). *)
Record Operation : Type := on { op_gate : ops.Gate; op_qubits : list QubitId }.

(** [op.inverse()]: the inverse gate on the same qubits. *)
Definition inverse_op (o : Operation) : Operation :=
  on (ops.Inverse (op_gate o)) (op_qubits o).

(** An OP_TREE: an operation or an iterable of OP_TREEs. *)
Inductive OP_TREE : Type :=
| Leaf (o : Operation)
| Node (children : list OP_TREE).

(** Modelled from the spec: [ops.flatten_op_tree] is not in this module; it
    is "simply recursive sequence concatenation" of the tree's operations. *)
Fixpoint flatten_op_tree (root : OP_TREE) : list Operation :=
  match root with
  | Leaf o => [o]
  | Node children => flat_map flatten_op_tree children
  end.

(** Modelled from the spec: [ops.inverse_of_invertable_op_tree] is not in
    this module; it gives "the exact operation-by-operation inverse ..., in
    reverse order". *)
Fixpoint inverse_of_invertable_op_tree (root : OP_TREE) : OP_TREE :=
  match root with
  | Leaf o => Leaf (inverse_op o)
  | Node children => Node (rev (map inverse_of_invertable_op_tree children))
  end.

(** The filter of line 124: [g.trace_distance_bound() > tolerance]. *)
Definition kept (tolerance : R) (g : ops.NativeGate) : bool :=
  Rgtb (trace_distance_bound g) tolerance.

Definition single_qubit_matrix_to_native_gates (mat : mat2) (tolerance : R)
  : list ops.NativeGate :=
  let '(xy_turn, xy_phase_turn, total_z_turn) :=
    _deconstruct_single_qubit_matrix_into_gate_turns mat in
  (* Build the intended operation out of non-negligible XY and Z rotations. *)
  let result := [ops.XYGate xy_turn xy_phase_turn; ops.ZGate total_z_turn] in
  let result := filter (kept tolerance) result in
  (* Special case: XY half-turns can absorb Z rotations. *)
  if (length result =? 2)%nat && Rgeb (Rabs xy_turn) (0.5 - tolerance) then
    [ops.XYGate 0.5 (xy_phase_turn + total_z_turn / 2)]
  else result.

Definition single_qubit_op_to_framed_phase_form (mat : mat2) : mat2 * C * C :=
  let '(vals, vecs) := eig mat in
  let u := adjoint vecs in
  let r := (snd vals / fst vals)%C in
  let g := fst vals in
  (u, r, g).

Definition controlled_op_to_native_gates (control target : QubitId)
  (operation : mat2) (tolerance : R) : outcome (list Operation) :=
  let '(u, z_phase, global_phase) :=
    single_qubit_op_to_framed_phase_form operation in
  if Rleb (Cmod (z_phase - RtoC 1)) tolerance then Returns []
  else
    let u_gates := single_qubit_matrix_to_native_gates u tolerance in
    trailing_z <-
      (if truthy u_gates
       then last_gate <- item_last u_gates ;; Returns (is_ZGate last_gate)
       else Returns false) ;;
    u_gates <-
      (if trailing_z
       then (* Don't keep border operations that commute with CZ. *)
         del_last u_gates
       else Returns u_gates) ;;
    let ops_before := Node (map (fun gate => Leaf (on (ops.Native gate) [target])) u_gates) in
    let ops_after := inverse_of_invertable_op_tree ops_before in
    let effect := on (ops.Pow ops.CZ (phase z_phase / PI)) [control; target] in
    let kickback := on (ops.Pow ops.Z (phase global_phase / PI)) [control] in
    Returns (flatten_op_tree
      (Node [ops_before;
             Leaf effect;
             (if Rgtb (Cmod (global_phase - RtoC 1)) tolerance
              then Leaf kickback else Node []);
             ops_after])).

(** The generator [parity_interaction] of [two_qubit_matrix_to_native_gates]:
    what it yields, as a tree ([op] is [None] when no framing gate is given). *)
Definition parity_interaction (q0 q1 : QubitId) (tolerance : R)
  (rads : R) (op : option ops.Gate) : OP_TREE :=
  if Rltb (Rabs rads) tolerance then Node []
  else
    let e := rads * 4 / PI in
    let h := - e / 2 in
    Node
      ((match op with
        | Some g => [Node [Leaf (on g [q0]); Leaf (on g [q1])]]
        | None => []
        end)
       ++ [Leaf (on (ops.Pow ops.CZ e) [q0; q1]);
           Leaf (on (ops.Pow ops.Z h) [q0]);
           Leaf (on (ops.Pow ops.Z h) [q1])]
       ++ (match op with
           | Some g => [Node [Leaf (on (ops.Inverse g) [q0]); Leaf (on (ops.Inverse g) [q1])]]
           | None => []
           end)).

(** The generator [do_single_on]. *)
Definition do_single_on (tolerance : R) (u : mat2) (q : QubitId) : OP_TREE :=
  Node (map (fun gate => Leaf (on (ops.Native gate) [q]))
            (single_qubit_matrix_to_native_gates u tolerance)).

Definition two_qubit_matrix_to_native_gates (q0 q1 : QubitId) (mat : mat4)
  (tolerance : R) : list Operation :=
  let '(_, (a1, a0), (x, y, z), (b1, b0)) := kak_decomposition mat tolerance in
  let pre := Node [do_single_on tolerance b1 q1; do_single_on tolerance b0 q0] in
  let post := Node [do_single_on tolerance a1 q1; do_single_on tolerance a0 q0] in
  let xx_part := parity_interaction q0 q1 tolerance x (Some (ops.Pow ops.Y (-0.5))) in
  let yy_part := parity_interaction q0 q1 tolerance y (Some (ops.Pow ops.X 0.5)) in
  let zz_part := parity_interaction q0 q1 tolerance z None in
  flatten_op_tree (Node [pre; xx_part; yy_part; zz_part; post]).

End Synthesis.

Arguments on {QubitId} op_gate op_qubits.
Arguments op_gate {QubitId} o.
Arguments op_qubits {QubitId} o.
Arguments inverse_op {QubitId} o.
Arguments Leaf {QubitId} o.
Arguments Node {QubitId} children.
Arguments flatten_op_tree {QubitId} root.
Arguments inverse_of_invertable_op_tree {QubitId} root.
Arguments controlled_op_to_native_gates {QubitId}.
Arguments parity_interaction {QubitId}.
Arguments do_single_on {QubitId}.
Arguments two_qubit_matrix_to_native_gates {QubitId}.

(** The three turns of a matrix, by name. *)
Definition xy_turn_of (mat : mat2) : R :=
  fst (fst (_deconstruct_single_qubit_matrix_into_gate_turns mat)).
Definition xy_phase_turn_of (mat : mat2) : R :=
  snd (fst (_deconstruct_single_qubit_matrix_into_gate_turns mat)).
Definition total_z_turn_of (mat : mat2) : R :=
  snd (_deconstruct_single_qubit_matrix_into_gate_turns mat).

(** The two candidate gates of lines 120-123. *)
Definition candidates (mat : mat2) : list ops.NativeGate :=
  [ops.XYGate (xy_turn_of mat) (xy_phase_turn_of mat); ops.ZGate (total_z_turn_of mat)].

(** ** Notions the theorems are stated with *)

(** The bound of a gate is never negative (the spec's contract of
    [trace_distance_bound]). *)
Definition nonnegative_bound (tdb : ops.NativeGate -> R) : Prop :=
  forall g, 0 <= tdb g.

(** The matrix that an angle triple stands for: "phase around Z, then rotate
    around Y, then phase around Z", built from the module's own matrices. *)
Definition zyz (angles : R * R * R) : mat2 :=
  let '(pre_phase, rotation, post_phase) := angles in
  dot (_phase_matrix post_phase)
      (dot (_rotation_matrix rotation) (_phase_matrix pre_phase)).

(** Modelled from the spec: the matrices of the two native gates, whose
    classes are not in this module.  An [XYGate] is "a continuous
    rotation-around-an-axis gate": it rotates by [turns] whole turns about the
    axis of the XY plane at phase [axis_phase_turns] (a quarter turn is the Y
    axis of [_rotation_matrix]); a [ZGate] is "a phase gate": it phases by
    [turns] whole turns about Z, as [_phase_matrix] does by an angle. *)
Definition xy_rotation (turns axis_phase_turns : R) : mat2 :=
  let half_angle := PI * turns in
  let axis := 2 * PI * axis_phase_turns in
  {| m00 := RtoC (cos half_angle);
     m01 := (- Ci * RtoC (sin half_angle) * Cexp (- axis))%C;
     m10 := (- Ci * RtoC (sin half_angle) * Cexp axis)%C;
     m11 := RtoC (cos half_angle) |}.

Definition z_phasing (turns : R) : mat2 := _phase_matrix (2 * PI * turns).

(** The matrix of a gate sequence applied in order: later gates multiply on
    the left. *)
Definition circuit_matrix (gate_matrix : ops.NativeGate -> mat2)
  (gates : list ops.NativeGate) : mat2 :=
  fold_left (fun acc g => dot (gate_matrix g) acc) gates I2.

(** What the synthesis relies on from the gate classes: each gate's matrix
    is, up to phase, the rotation its parameters name, ... *)
Definition gate_semantics (gate_matrix : ops.NativeGate -> mat2) : Prop :=
  (forall t a, up_to_phase (gate_matrix (ops.XYGate t a)) (xy_rotation t a))
  /\ (forall t, up_to_phase (gate_matrix (ops.ZGate t)) (z_phasing t)).

(** ... and a gate whose bound is not positive does nothing (the bound is
    "an upper bound on the operator distance it introduces"). *)
Definition sound_bound (tdb : ops.NativeGate -> R)
  (gate_matrix : ops.NativeGate -> mat2) : Prop :=
  forall g, tdb g <= 0 -> up_to_phase (gate_matrix g) I2.

(** ** The two-qubit and controlled sequences, written flat *)

Section Flat.

Context {QubitId : Type}.
Variable tdb : ops.NativeGate -> R.

(** "single-qubit synthesis of [u] on [q]" *)
Definition synthesis_on (tolerance : R) (u : mat2) (q : QubitId)
  : list (Operation QubitId) :=
  map (fun gate => on (ops.Native gate) [q])
      (single_qubit_matrix_to_native_gates tdb u tolerance).

(** "parity_interaction(rads, framing)", operation by operation. *)
Definition parity_interaction_spec (q0 q1 : QubitId) (tolerance : R)
  (rads : R) (framing : option ops.Gate) : list (Operation QubitId) :=
  if Rltb (Rabs rads) tolerance then []
  else
    (match framing with
     | Some g => [on g [q0]; on g [q1]]
     | None => []
     end)
    ++ [on (ops.Pow ops.CZ (4 * rads / PI)) [q0; q1];
        on (ops.Pow ops.Z (-2 * rads / PI)) [q0];
        on (ops.Pow ops.Z (-2 * rads / PI)) [q1]]
    ++ (match framing with
        | Some g => [on (ops.Inverse g) [q0]; on (ops.Inverse g) [q1]]
        | None => []
        end).

(** "a trailing PhaseGate dropped if it is last" *)
Definition drop_trailing_phase (gates : list ops.NativeGate)
  : list ops.NativeGate :=
  match rev gates with
  | ops.ZGate _ :: rest => rev rest
  | _ => gates
  end.

End Flat.

(** ** Concrete inputs *)

(** The identity, the bit flip [[0, 1], [1, 0]], the phase flip
    [[1, 0], [0, -1]], and the unitaries [[0, i], [1, 0]] and
    [[0, -1], [1, 0]]. *)
Definition identity_matrix : mat2 := Mat2 (RtoC 1) (RtoC 0) (RtoC 0) (RtoC 1).
Definition pauli_X : mat2 := Mat2 (RtoC 0) (RtoC 1) (RtoC 1) (RtoC 0).
Definition pauli_Z : mat2 := Mat2 (RtoC 1) (RtoC 0) (RtoC 0) (RtoC (- 1)).
Definition phased_flip : mat2 := Mat2 (RtoC 0) Ci (RtoC 1) (RtoC 0).
Definition minus_iY : mat2 := Mat2 (RtoC 0) (RtoC (- 1)) (RtoC 1) (RtoC 0).

(** Modelled from the spec: [trace_distance_bound] of the absent gate
    classes, "a nonnegative real upper bound on the operator distance it
    introduces".  The instance used on concrete inputs grows with the
    magnitude of the turns and is zero for a gate of zero turns, as the
    spec's property that the identity matrix synthesises to the empty
    sequence at every positive tolerance requires. *)
Definition turns_bound (g : ops.NativeGate) : R :=
  match g with
  | ops.XYGate turns _ => Rabs turns * 3.5
  | ops.ZGate turns => Rabs turns * 3.5
  end.

(** The matrices [xy_rotation] and [z_phasing], gate by gate. *)
Definition native_matrix (g : ops.NativeGate) : mat2 :=
  match g with
  | ops.XYGate turns axis_phase_turns => xy_rotation turns axis_phase_turns
  | ops.ZGate turns => z_phasing turns
  end.

(** An eigendecomposition of diagonal matrices: the diagonal, and the
    identity as eigenvectors. *)
Definition diagonal_eig (m : mat2) : (C * C) * mat2 := ((m00 m, m11 m), I2).

(** The same with the eigenpairs in the other order: the eigenvectors are the
    columns of the bit flip. *)
Definition swapped_eig (m : mat2) : (C * C) * mat2 :=
  ((m11 m, m00 m), pauli_X).

(** ** Further notions and inputs *)

(** [np.diag([a, b])] *)
Definition diag2 (a b : C) : mat2 :=
  {| m00 := a; m01 := RtoC 0; m10 := RtoC 0; m11 := b |}.

(** An operation on two qubits. *)
Definition is_two_qubit {QubitId : Type} (o : Operation QubitId) : bool :=
  (length (op_qubits o) =? 2)%nat.

(** [1] for an interaction coefficient that is not below the tolerance. *)
Definition interacting (tolerance rads : R) : nat :=
  if Rltb (Rabs rads) tolerance then 0%nat else 1%nat.

(** An identity KAK decomposition: no local rotation, no interaction. *)
Definition trivial_kak (mat : mat4) (tolerance : R)
  : C * (mat2 * mat2) * (R * R * R) * (mat2 * mat2) :=
  (RtoC 1, (identity_matrix, identity_matrix), (0, 0, 0),
   (identity_matrix, identity_matrix)).

(** ** Comparisons *)

Lemma Rgtb_true (a b : R) : Rgtb a b = true <-> a > b.
Proof. unfold Rgtb. destruct (Rlt_dec b a); split; intros; auto; try discriminate; lra. Qed.

Lemma Rgtb_false (a b : R) : Rgtb a b = false <-> a <= b.
Proof. unfold Rgtb. destruct (Rlt_dec b a); split; intros; auto; try discriminate; lra. Qed.

Lemma Rgeb_true (a b : R) : Rgeb a b = true <-> a >= b.
Proof. unfold Rgeb. destruct (Rle_dec b a); split; intros; auto; try discriminate; lra. Qed.

Lemma Rgeb_false (a b : R) : Rgeb a b = false <-> a < b.
Proof. unfold Rgeb. destruct (Rle_dec b a); split; intros; auto; try discriminate; lra. Qed.

Lemma Rltb_true (a b : R) : Rltb a b = true <-> a < b.
Proof. unfold Rltb. destruct (Rlt_dec a b); split; intros; auto; try discriminate; lra. Qed.

Lemma Rltb_false (a b : R) : Rltb a b = false <-> a >= b.
Proof. unfold Rltb. destruct (Rlt_dec a b); split; intros; auto; try discriminate; lra. Qed.

Lemma Rleb_true (a b : R) : Rleb a b = true <-> a <= b.
Proof. unfold Rleb. destruct (Rle_dec a b); split; intros; auto; try discriminate; lra. Qed.

Lemma Rleb_false (a b : R) : Rleb a b = false <-> a > b.
Proof. unfold Rleb. destruct (Rle_dec a b); split; intros; auto; try discriminate; lra. Qed.

(** ** Facts about [_signed_mod_1] *)

Lemma float_mod_1_range (x : R) : 0 <= float_mod x 1 < 1.
Proof.
  unfold float_mod.
  replace (x / 1) with x by field.
  destruct (base_fp x) as [Hge Hlt]. unfold frac_part in Hge, Hlt.
  lra.
Qed.

Lemma float_mod_1_small (x : R) : 0 <= x < 1 -> float_mod x 1 = x.
Proof.
  intros Hx. unfold float_mod.
  replace (x / 1) with x by field.
  assert (Hz : 0%Z = Int_part x) by (apply Int_part_spec; simpl; lra).
  rewrite <- Hz. simpl. lra.
Qed.

Lemma _signed_mod_1_range (x : R) : -0.5 <= _signed_mod_1 x < 0.5.
Proof.
  unfold _signed_mod_1.
  pose proof (float_mod_1_range (x + 0.5)). lra.
Qed.

Lemma _signed_mod_1_fixed (x : R) : -0.5 <= x < 0.5 -> _signed_mod_1 x = x.
Proof.
  intros Hx. unfold _signed_mod_1.
  rewrite float_mod_1_small by lra. lra.
Qed.

(** C7: [_signed_mod_1] is idempotent and its result lies in [-0.5, 0.5). *)
Theorem signed_mod_1_idempotent_in_range (x : R) :
  _signed_mod_1 (_signed_mod_1 x) = _signed_mod_1 x
  /\ -0.5 <= _signed_mod_1 x < 0.5.
Proof.
  split.
  - apply _signed_mod_1_fixed, _signed_mod_1_range.
  - apply _signed_mod_1_range.
Qed.

(** ** The single-qubit synthesis over the named turns *)

Lemma gate_turns_eta (mat : mat2) :
  _deconstruct_single_qubit_matrix_into_gate_turns mat
  = (xy_turn_of mat, xy_phase_turn_of mat, total_z_turn_of mat).
Proof.
  unfold xy_turn_of, xy_phase_turn_of, total_z_turn_of.
  destruct (_deconstruct_single_qubit_matrix_into_gate_turns mat) as [[a b] c].
  reflexivity.
Qed.

Lemma gate_turns_range (mat : mat2) :
  -0.5 <= xy_turn_of mat < 0.5
  /\ -0.5 <= xy_phase_turn_of mat < 0.5
  /\ -0.5 <= total_z_turn_of mat < 0.5.
Proof.
  unfold xy_turn_of, xy_phase_turn_of, total_z_turn_of,
    _deconstruct_single_qubit_matrix_into_gate_turns.
  destruct (_deconstruct_single_qubit_matrix_into_angles mat) as [[pre rot] post].
  cbn [fst snd].
  repeat split; apply _signed_mod_1_range.
Qed.


(** The function, unfolded over the named turns. *)
Lemma single_qubit_unfold tdb (mat : mat2) (tolerance : R) :
  single_qubit_matrix_to_native_gates tdb mat tolerance
  = if (length (filter (kept tdb tolerance) (candidates mat)) =? 2)%nat
       && Rgeb (Rabs (xy_turn_of mat)) (0.5 - tolerance)
    then [ops.XYGate 0.5 (xy_phase_turn_of mat + total_z_turn_of mat / 2)]
    else filter (kept tdb tolerance) (candidates mat).
Proof.
  unfold single_qubit_matrix_to_native_gates, candidates.
  rewrite (gate_turns_eta mat). reflexivity.
Qed.

Lemma filter_candidates_length tdb (mat : mat2) (tolerance : R) :
  length (filter (kept tdb tolerance) (candidates mat)) = 2%nat
  <-> kept tdb tolerance (ops.XYGate (xy_turn_of mat) (xy_phase_turn_of mat)) = true
      /\ kept tdb tolerance (ops.ZGate (total_z_turn_of mat)) = true.
Proof.
  unfold candidates. cbn [filter].
  destruct (kept tdb tolerance (ops.XYGate _ _)), (kept tdb tolerance (ops.ZGate _));
    cbn; split; intros H; try discriminate; try (destruct H; discriminate); auto.
Qed.

(** When a candidate is dropped the filtered list is returned unchanged. *)
Lemma single_qubit_dropped tdb (mat : mat2) (tolerance : R) :
  length (filter (kept tdb tolerance) (candidates mat)) <> 2%nat ->
  single_qubit_matrix_to_native_gates tdb mat tolerance
  = filter (kept tdb tolerance) (candidates mat).
Proof.
  intros H. rewrite single_qubit_unfold.
  apply Nat.eqb_neq in H. rewrite H. reflexivity.
Qed.

Lemma single_qubit_absorbed tdb (mat : mat2) (tolerance : R) :
  length (filter (kept tdb tolerance) (candidates mat)) = 2%nat ->
  Rabs (xy_turn_of mat) >= 0.5 - tolerance ->
  single_qubit_matrix_to_native_gates tdb mat tolerance
  = [ops.XYGate 0.5 (xy_phase_turn_of mat + total_z_turn_of mat / 2)].
Proof.
  intros Hlen Habs. rewrite single_qubit_unfold.
  apply Nat.eqb_eq in Hlen. rewrite Hlen.
  apply Rgeb_true in Habs. rewrite Habs. reflexivity.
Qed.

(** C4: when both candidates survive the filter and the XY rotation is within
    tolerance of a half turn, the result is the single absorbing gate; when
    the phase gate was elided, the filtered list is returned as it is, and it
    is never the half-turn gate of the replacement. *)
Theorem half_turn_absorption_after_filtering tdb (mat : mat2) (tolerance : R) :
  (length (filter (kept tdb tolerance) (candidates mat)) = 2%nat ->
   Rabs (xy_turn_of mat) >= 0.5 - tolerance ->
   single_qubit_matrix_to_native_gates tdb mat tolerance
   = [ops.XYGate 0.5 (xy_phase_turn_of mat + total_z_turn_of mat / 2)])
  /\
  (kept tdb tolerance (ops.ZGate (total_z_turn_of mat)) = false ->
   single_qubit_matrix_to_native_gates tdb mat tolerance
   = filter (kept tdb tolerance)
       [ops.XYGate (xy_turn_of mat) (xy_phase_turn_of mat)]
   /\ forall axis_phase_turns,
      single_qubit_matrix_to_native_gates tdb mat tolerance
      <> [ops.XYGate 0.5 axis_phase_turns]).
Proof.
  split.
  - apply single_qubit_absorbed.
  - intros Hz.
    assert (Hres : single_qubit_matrix_to_native_gates tdb mat tolerance
                   = filter (kept tdb tolerance)
                       [ops.XYGate (xy_turn_of mat) (xy_phase_turn_of mat)]).
    { rewrite single_qubit_dropped.
      - unfold candidates. cbn [filter]. rewrite Hz. reflexivity.
      - intros Hlen. apply filter_candidates_length in Hlen.
        destruct Hlen as [_ Hlen]. congruence. }
    split; [exact Hres |].
    intros a Ha. rewrite Hres in Ha. cbn [filter] in Ha.
    destruct (kept tdb tolerance (ops.XYGate _ _)); [| discriminate].
    injection Ha as Hturn _.
    pose proof (gate_turns_range mat) as [Hxy _]. lra.
Qed.

(** C6, as the code has it: below tolerance zero nothing is elided; at
    tolerance zero a gate is elided exactly when its bound is zero. *)
Theorem no_elision_below_zero tdb (mat : mat2) (tolerance : R) :
  nonnegative_bound tdb ->
  (tolerance < 0 ->
   filter (kept tdb tolerance) (candidates mat) = candidates mat)
  /\ (forall g, kept tdb 0 g = false <-> tdb g = 0).
Proof.
  intros Hnn. split.
  - intros Htol. unfold candidates. cbn [filter].
    assert (Hk : forall g, kept tdb tolerance g = true).
    { intros g. apply Rgtb_true. specialize (Hnn g). lra. }
    rewrite !Hk. reflexivity.
  - intros g. unfold kept. rewrite Rgtb_false.
    specialize (Hnn g). split; lra.
Qed.

(** C5, as the code has it: a candidate whose bound equals the tolerance is
    dropped (the filter keeps [bound > tolerance] only), and a controlled
    operation whose [|z_phase - 1|] equals the tolerance gives the empty
    sequence. *)
Theorem tolerance_boundaries {QubitId : Type} tdb eig
  (mat : mat2) (g : ops.NativeGate) (control target : QubitId)
  (operation : mat2) (tolerance : R) :
  (In g (candidates mat) -> tdb g = tolerance ->
   kept tdb tolerance g = false
   /\ ~ In g (single_qubit_matrix_to_native_gates tdb mat tolerance))
  /\
  (Cmod (snd (fst (single_qubit_op_to_framed_phase_form eig operation))
         - RtoC 1) = tolerance ->
   controlled_op_to_native_gates tdb eig control target operation tolerance
   = Returns []).
Proof.
  split.
  - intros Hin Hb.
    assert (Hk : kept tdb tolerance g = false)
      by (apply Rgtb_false; lra).
    split; [exact Hk |].
    rewrite single_qubit_dropped.
    + intros Hf. apply filter_In in Hf. destruct Hf as [_ Hf]. congruence.
    + intros Hlen. apply filter_candidates_length in Hlen.
      destruct Hlen as [H1 H2].
      unfold candidates in Hin. cbn [In] in Hin.
      destruct Hin as [<- | [<- | []]]; congruence.
  - intros Hz. unfold controlled_op_to_native_gates.
    destruct (single_qubit_op_to_framed_phase_form eig operation)
      as [[u z_phase] global_phase].
    cbn [fst snd] in Hz.
    assert (Hle : Rleb (Cmod (z_phase - RtoC 1)) tolerance = true)
      by (apply Rleb_true; lra).
    rewrite Hle. reflexivity.
Qed.

(** ** The functions of [math] and [cmath] *)

Lemma C_eq (a b c d : R) : a = c -> b = d -> (a, b) = (c, d) :> C.
Proof. intros -> ->. reflexivity. Qed.

Lemma atan2_0_0 : atan2 0 0 = 0.
Proof.
  unfold atan2.
  destruct (Rlt_dec 0 0) as [H | _]; [lra |].
  destruct (Rlt_dec 0 0) as [H | _]; [lra |]. reflexivity.
Qed.

Lemma atan2_0_pos (x : R) : 0 < x -> atan2 0 x = 0.
Proof.
  intros Hx. unfold atan2.
  destruct (Rlt_dec 0 x) as [_ | H]; [| lra].
  replace (0 / x) with 0 by (field; lra). apply atan_0.
Qed.

Lemma atan2_0_neg (x : R) : x < 0 -> atan2 0 x = PI.
Proof.
  intros Hx. unfold atan2.
  destruct (Rlt_dec 0 x) as [H | _]; [lra |].
  destruct (Rlt_dec x 0) as [_ | H]; [| lra].
  destruct (Rle_dec 0 0) as [_ | H]; [| lra].
  replace (0 / x) with 0 by (field; lra). rewrite atan_0. ring.
Qed.

Lemma atan2_pos_0 (y : R) : 0 < y -> atan2 y 0 = PI / 2.
Proof.
  intros Hy. unfold atan2.
  destruct (Rlt_dec 0 0) as [H | _]; [lra |].
  destruct (Rlt_dec 0 0) as [H | _]; [lra |].
  destruct (Rlt_dec 0 y) as [_ | H]; [| lra]. reflexivity.
Qed.

Lemma signed_mod_1_shift (x : R) (k : Z) :
  -0.5 <= x - IZR k < 0.5 -> _signed_mod_1 x = x - IZR k.
Proof.
  intros Hx. unfold _signed_mod_1, float_mod.
  replace ((x + 0.5) / 1) with (x + 0.5) by field.
  assert (Hz : k = Int_part (x + 0.5)) by (apply Int_part_spec; lra).
  rewrite <- Hz. lra.
Qed.

Lemma signed_mod_1_integer_shift (x : R) :
  exists k : Z, _signed_mod_1 x = x - IZR k.
Proof.
  exists (Int_part (x + 0.5)). unfold _signed_mod_1, float_mod.
  replace ((x + 0.5) / 1) with (x + 0.5) by field. lra.
Qed.

Lemma sqrt_hyp_pos (x y : R) : 0 < x ->
  sqrt (x * x + y * y) = x * sqrt (1 + (y / x)²).
Proof.
  intros Hx.
  replace (x * x + y * y) with ((x * x) * (1 + (y / x)²))
    by (unfold Rsqr; field; lra).
  rewrite sqrt_mult.
  - rewrite sqrt_square by lra. reflexivity.
  - nra.
  - pose proof (Rle_0_sqr (y / x)). lra.
Qed.

Lemma sqrt_hyp_neg (x y : R) : x < 0 ->
  sqrt (x * x + y * y) = - x * sqrt (1 + (y / x)²).
Proof.
  intros Hx.
  replace (x * x + y * y) with ((- x * - x) * (1 + (y / x)²))
    by (unfold Rsqr; field; lra).
  rewrite sqrt_mult.
  - rewrite sqrt_square by lra. reflexivity.
  - nra.
  - pose proof (Rle_0_sqr (y / x)). lra.
Qed.

Lemma sqrt_1_sqr_pos (t : R) : 0 < sqrt (1 + t²).
Proof. apply sqrt_lt_R0. pose proof (Rle_0_sqr t). lra. Qed.

Lemma atan2_polar (y x : R) :
  sqrt (x * x + y * y) * cos (atan2 y x) = x
  /\ sqrt (x * x + y * y) * sin (atan2 y x) = y.
Proof.
  unfold atan2.
  destruct (Rlt_dec 0 x) as [Hx | Hx].
  - rewrite sqrt_hyp_pos, cos_atan, sin_atan by assumption.
    pose proof (sqrt_1_sqr_pos (y / x)).
    split; field; lra.
  - destruct (Rlt_dec x 0) as [Hx' | Hx'].
    + pose proof (sqrt_1_sqr_pos (y / x)).
      destruct (Rle_dec 0 y).
      * rewrite neg_cos, neg_sin, sqrt_hyp_neg, cos_atan, sin_atan by assumption.
        split; field; lra.
      * unfold Rminus. 
        replace (atan (y / x) + - PI) with (- (- atan (y / x) + PI)) by ring.
        rewrite cos_neg, sin_neg, neg_cos, neg_sin, cos_neg, sin_neg,
          sqrt_hyp_neg, cos_atan, sin_atan by assumption.
        split; field; lra.
    + assert (x = 0) by lra. subst x.
      replace (0 * 0 + y * y) with (y * y) by ring.
      destruct (Rlt_dec 0 y).
      * rewrite sqrt_square, cos_PI2, sin_PI2 by lra. lra.
      * destruct (Rlt_dec y 0).
        -- replace (y * y) with (- y * - y) by ring.
           rewrite sqrt_square, cos_neg, sin_neg, cos_PI2, sin_PI2 by lra. lra.
        -- assert (y = 0) by lra. subst y.
           rewrite Rmult_0_r, sqrt_0. lra.
Qed.

(** ** The angle deconstruction, product by product *)

Lemma phase_origin (z : C) : fst z = 0 -> snd z = 0 -> phase z = 0.
Proof. intros H1 H2. unfold phase. rewrite H1, H2. apply atan2_0_0. Qed.

Lemma Cmod_origin (z : C) : fst z = 0 -> snd z = 0 -> Cmod z = 0.
Proof.
  intros H1 H2. unfold Cmod, Cnorm2. rewrite H1, H2.
  replace (0 * 0 + 0 * 0) with 0 by ring. apply sqrt_0.
Qed.

Lemma Cmod_pos (z : C) : 0 < Cnorm2 z -> 0 < Cmod z.
Proof. intros H. unfold Cmod. apply sqrt_lt_R0, H. Qed.

Lemma mat2_eq (a b c d a' b' c' d' : C) :
  a = a' -> b = b' -> c = c' -> d = d' ->
  Mat2 a b c d = Mat2 a' b' c' d'.
Proof. intros -> -> -> ->. reflexivity. Qed.

Ltac c_ring :=
  unfold Cminus; unfold Cplus, Copp, Cmult, Cconj, RtoC, Ci, Cexp;
  cbn [fst snd]; apply C_eq; ring.

Ltac split_C :=
  repeat match goal with
         | z : C |- _ => destruct z as [? ?]
         end.

Lemma dot_phase_r (m : mat2) (angle : R) :
  dot m (_phase_matrix angle)
  = Mat2 (m00 m) (m01 m * Cexp angle) (m10 m) (m11 m * Cexp angle).
Proof.
  destruct m as [a b c d]. split_C.
  unfold dot, _phase_matrix. cbn [m00 m01 m10 m11].
  apply mat2_eq; c_ring.
Qed.

Lemma dot_phase_l (angle : R) (m : mat2) :
  dot (_phase_matrix angle) m
  = Mat2 (m00 m) (m01 m) (Cexp angle * m10 m) (Cexp angle * m11 m).
Proof.
  destruct m as [a b c d]. split_C.
  unfold dot, _phase_matrix. cbn [m00 m01 m10 m11].
  apply mat2_eq; c_ring.
Qed.

Lemma dot_rotation_l (angle : R) (m : mat2) :
  dot (_rotation_matrix (- angle)) m
  = Mat2 (RtoC (cos angle) * m00 m + RtoC (sin angle) * m10 m)
         (RtoC (cos angle) * m01 m + RtoC (sin angle) * m11 m)
         (RtoC (cos angle) * m10 m - RtoC (sin angle) * m00 m)
         (RtoC (cos angle) * m11 m - RtoC (sin angle) * m01 m).
Proof.
  destruct m as [a b c d]. split_C.
  unfold dot, _rotation_matrix. cbv zeta. cbn [m00 m01 m10 m11].
  rewrite cos_neg, sin_neg.
  apply mat2_eq; c_ring.
Qed.

(** The angle deconstruction with its three matrix products carried out. *)
Lemma angles_unfold (mat : mat2) :
  _deconstruct_single_qubit_matrix_into_angles mat
  = let right_phase := phase (m01 mat * Cconj (m00 mat)) + PI in
    let bottom_phase := phase (m10 mat * Cconj (m00 mat)) in
    let er := Cexp (- right_phase) in
    let eb := Cexp (- bottom_phase) in
    let rotation := atan2 (Cmod (eb * m10 mat)) (Cmod (m00 mat)) in
    let c := RtoC (cos rotation) in
    let s := RtoC (sin rotation) in
    let diagonal_phase :=
      phase ((c * (eb * (m11 mat * er)) - s * (m01 mat * er))
             * Cconj (c * m00 mat + s * (eb * m10 mat))) in
    (right_phase + diagonal_phase, rotation, bottom_phase).
Proof.
  unfold _deconstruct_single_qubit_matrix_into_angles. cbv zeta.
  rewrite !dot_phase_r. cbn [m00 m01 m10 m11].
  rewrite !dot_phase_l. cbn [m00 m01 m10 m11].
  rewrite !dot_rotation_l. cbn [m00 m01 m10 m11].
  reflexivity.
Qed.

(** ** The angles and turns of concrete matrices *)

Lemma Cexp_0 : Cexp (- 0) = RtoC 1.
Proof. unfold Cexp, RtoC. rewrite Ropp_0, cos_0, sin_0. reflexivity. Qed.

Lemma Cexp_neg_PI : Cexp (- (0 + PI)) = RtoC (- 1).
Proof.
  unfold Cexp, RtoC. rewrite Rplus_0_l, cos_neg, sin_neg, cos_PI, sin_PI.
  apply C_eq; ring.
Qed.

Lemma Cmult_1_l (z : C) : (RtoC 1 * z)%C = z.
Proof. destruct z. c_ring. Qed.

Lemma angles_antidiagonal (b c : C) :
  0 < Cnorm2 c ->
  _deconstruct_single_qubit_matrix_into_angles (Mat2 (RtoC 0) b c (RtoC 0))
  = (0 + PI + phase (b * Cconj c), PI / 2, 0).
Proof.
  intros Hc. rewrite angles_unfold. cbv zeta. cbn [m00 m01 m10 m11].
  assert (Hb0 : phase (b * Cconj (RtoC 0)) = 0)
    by (apply phase_origin; destruct b; cbn; ring).
  assert (Hc0 : phase (c * Cconj (RtoC 0)) = 0)
    by (apply phase_origin; destruct c; cbn; ring).
  rewrite Hb0, Hc0, Cexp_0, Cexp_neg_PI, Cmult_1_l.
  rewrite (Cmod_origin (RtoC 0)) by reflexivity.
  rewrite atan2_pos_0 by (apply Cmod_pos, Hc).
  rewrite cos_PI2, sin_PI2.
  repeat f_equal; destruct b, c; c_ring.
Qed.

Lemma angles_diagonal (a d : C) :
  0 < Cnorm2 a ->
  _deconstruct_single_qubit_matrix_into_angles (Mat2 a (RtoC 0) (RtoC 0) d)
  = (0 + PI + phase (- (d * Cconj a)), 0, 0).
Proof.
  intros Ha. rewrite angles_unfold. cbv zeta. cbn [m00 m01 m10 m11].
  assert (H0 : phase (RtoC 0 * Cconj a) = 0)
    by (apply phase_origin; destruct a; cbn; ring).
  rewrite H0, Cexp_0, Cexp_neg_PI, Cmult_1_l.
  rewrite (Cmod_origin (RtoC 0)) by reflexivity.
  rewrite atan2_0_pos by (apply Cmod_pos, Ha).
  rewrite cos_0, sin_0.
  repeat f_equal; destruct a, d; c_ring.
Qed.

Lemma Cnorm2_1 : 0 < Cnorm2 (RtoC 1).
Proof. unfold Cnorm2, RtoC. cbn. lra. Qed.

Lemma phase_real_pos (x : R) (z : C) : 0 < x -> z = RtoC x -> phase z = 0.
Proof. intros Hx ->. unfold phase, RtoC. cbn [fst snd]. apply atan2_0_pos, Hx. Qed.

Lemma phase_real_neg (x : R) (z : C) : x < 0 -> z = RtoC x -> phase z = PI.
Proof. intros Hx ->. unfold phase, RtoC. cbn [fst snd]. apply atan2_0_neg, Hx. Qed.

Lemma phase_imag_pos (y : R) (z : C) : 0 < y -> z = (0, y) -> phase z = PI / 2.
Proof. intros Hy ->. unfold phase. cbn [fst snd]. apply atan2_pos_0, Hy. Qed.

Lemma triple_eq (a b c a' b' c' : R) :
  a = a' -> b = b' -> c = c' -> (a, b, c) = (a', b', c').
Proof. intros -> -> ->. reflexivity. Qed.

Lemma angles_pauli_X :
  _deconstruct_single_qubit_matrix_into_angles pauli_X = (PI, PI / 2, 0).
Proof.
  unfold pauli_X. rewrite angles_antidiagonal by apply Cnorm2_1.
  rewrite (phase_real_pos 1) by (lra || c_ring).
  apply triple_eq; lra.
Qed.

Lemma angles_phased_flip :
  _deconstruct_single_qubit_matrix_into_angles phased_flip
  = (3 * PI / 2, PI / 2, 0).
Proof.
  unfold phased_flip. rewrite angles_antidiagonal by apply Cnorm2_1.
  rewrite (phase_imag_pos 1) by (lra || c_ring).
  apply triple_eq; lra.
Qed.

Lemma angles_minus_iY :
  _deconstruct_single_qubit_matrix_into_angles minus_iY = (2 * PI, PI / 2, 0).
Proof.
  unfold minus_iY. rewrite angles_antidiagonal by apply Cnorm2_1.
  rewrite (phase_real_neg (- 1)) by (lra || c_ring).
  apply triple_eq; lra.
Qed.

Lemma angles_identity :
  _deconstruct_single_qubit_matrix_into_angles identity_matrix = (2 * PI, 0, 0).
Proof.
  unfold identity_matrix. rewrite angles_diagonal by apply Cnorm2_1.
  rewrite (phase_real_neg (- 1)) by (lra || c_ring).
  apply triple_eq; lra.
Qed.

Lemma angles_pauli_Z :
  _deconstruct_single_qubit_matrix_into_angles pauli_Z = (PI, 0, 0).
Proof.
  unfold pauli_Z. rewrite angles_diagonal by apply Cnorm2_1.
  rewrite (phase_real_pos 1) by (lra || c_ring).
  apply triple_eq; lra.
Qed.

Ltac turns_of H :=
  unfold _deconstruct_single_qubit_matrix_into_gate_turns;
  rewrite H; cbv zeta;
  apply triple_eq.

Lemma signed_mod_1_at (x v y : R) (k : Z) :
  x = v -> v = y + IZR k -> -0.5 <= y < 0.5 -> _signed_mod_1 x = y.
Proof.
  intros -> -> Hy. rewrite (signed_mod_1_shift _ k); lra.
Qed.

Lemma quarter_eq : 0.25 = 1 / 4.
Proof. lra. Qed.

Lemma half_eq : 0.5 = 1 / 2.
Proof. lra. Qed.

Ltac sm_at v y k :=
  apply (signed_mod_1_at _ v y k);
  [rewrite ?quarter_eq, ?half_eq; field; apply PI_neq0 | simpl; lra | lra].

Lemma turns_pauli_X :
  _deconstruct_single_qubit_matrix_into_gate_turns pauli_X
  = (-0.5, -0.25, -0.5).
Proof.
  turns_of angles_pauli_X.
  - sm_at (1/2) (-0.5) (1)%Z.
  - sm_at (-1/4) (-0.25) (0)%Z.
  - sm_at (1/2) (-0.5) (1)%Z.
Qed.

Lemma turns_phased_flip :
  _deconstruct_single_qubit_matrix_into_gate_turns phased_flip
  = (-0.5, -0.5, -0.25).
Proof.
  turns_of angles_phased_flip.
  - sm_at (1/2) (-0.5) (1)%Z.
  - sm_at (-1/2) (-0.5) (0)%Z.
  - sm_at (3/4) (-0.25) (1)%Z.
Qed.

Lemma turns_minus_iY :
  _deconstruct_single_qubit_matrix_into_gate_turns minus_iY
  = (-0.5, 0.25, 0).
Proof.
  turns_of angles_minus_iY.
  - sm_at (1/2) (-0.5) (1)%Z.
  - sm_at (-3/4) (0.25) (-1)%Z.
  - sm_at (1) (0) (1)%Z.
Qed.

Lemma turns_identity :
  _deconstruct_single_qubit_matrix_into_gate_turns identity_matrix
  = (0, 0.25, 0).
Proof.
  turns_of angles_identity.
  - sm_at (0) (0) (0)%Z.
  - sm_at (-3/4) (0.25) (-1)%Z.
  - sm_at (1) (0) (1)%Z.
Qed.

Lemma turns_pauli_Z :
  _deconstruct_single_qubit_matrix_into_gate_turns pauli_Z
  = (0, -0.25, -0.5).
Proof.
  turns_of angles_pauli_Z.
  - sm_at (0) (0) (0)%Z.
  - sm_at (-1/4) (-0.25) (0)%Z.
  - sm_at (1/2) (-0.5) (1)%Z.
Qed.

(** ** Unitary matrices and complex moduli *)

Lemma unitary_rows (a1 a2 b1 b2 c1 c2 d1 d2 : R) :
  unitary (Mat2 (a1, a2) (b1, b2) (c1, c2) (d1, d2)) ->
  a1 * a1 + a2 * a2 + b1 * b1 + b2 * b2 = 1
  /\ c1 * c1 + c2 * c2 + d1 * d1 + d2 * d2 = 1
  /\ a1 * c1 + a2 * c2 + b1 * d1 + b2 * d2 = 0
  /\ a2 * c1 - a1 * c2 + b2 * d1 - b1 * d2 = 0.
Proof.
  unfold unitary, dot, adjoint, I2. cbn [m00 m01 m10 m11].
  unfold Cplus, Cmult, Cconj, RtoC. cbn [fst snd].
  intros H. injection H as H1 H2 H3 H4 H5 H6 H7 H8.
  repeat split; lra.
Qed.

(** A matrix with orthonormal rows has orthonormal columns. *)
Lemma unitary_columns (a1 a2 b1 b2 c1 c2 d1 d2 : R) :
  unitary (Mat2 (a1, a2) (b1, b2) (c1, c2) (d1, d2)) ->
  a1 * a1 + a2 * a2 + c1 * c1 + c2 * c2 = 1
  /\ b1 * b1 + b2 * b2 + d1 * d1 + d2 * d2 = 1
  /\ a1 * b1 + a2 * b2 + c1 * d1 + c2 * d2 = 0
  /\ a1 * b2 - a2 * b1 + c1 * d2 - c2 * d1 = 0.
Proof.
  intros H. apply unitary_rows in H. destruct H as (H1 & H2 & H3 & H4).
  repeat split; nsatz.
Qed.

Lemma cos2_sin2 (x : R) : cos x * cos x + sin x * sin x = 1.
Proof. pose proof (sin2_cos2 x) as H. unfold Rsqr in H. lra. Qed.

Lemma Cnorm2_nonneg (z : C) : 0 <= Cnorm2 z.
Proof. unfold Cnorm2. nra. Qed.

Lemma Cmod_sqr (z : C) : Cmod z * Cmod z = Cnorm2 z.
Proof. unfold Cmod. apply sqrt_sqrt, Cnorm2_nonneg. Qed.

Lemma Cmod_nonneg (z : C) : 0 <= Cmod z.
Proof. unfold Cmod. apply sqrt_pos. Qed.

Lemma Cnorm2_mult (z w : C) : Cnorm2 (z * w) = Cnorm2 z * Cnorm2 w.
Proof. destruct z, w. unfold Cnorm2, Cmult. cbn [fst snd]. ring. Qed.

Lemma Cnorm2_Cexp (angle : R) : Cnorm2 (Cexp angle) = 1.
Proof. unfold Cnorm2, Cexp. cbn [fst snd]. apply cos2_sin2. Qed.

Lemma Cmod_Cexp_mult (angle : R) (z : C) : Cmod (Cexp angle * z) = Cmod z.
Proof.
  unfold Cmod. rewrite Cnorm2_mult, Cnorm2_Cexp, Rmult_1_l. reflexivity.
Qed.

Lemma Cmod_mult (z w : C) : Cmod (z * w) = Cmod z * Cmod w.
Proof.
  unfold Cmod. rewrite Cnorm2_mult.
  apply sqrt_mult; apply Cnorm2_nonneg.
Qed.

Lemma Cmod_Cconj (z : C) : Cmod (Cconj z) = Cmod z.
Proof.
  unfold Cmod, Cnorm2, Cconj. cbn [fst snd]. f_equal. ring.
Qed.

(** Every complex number is its modulus times the unit at its phase. *)
Lemma polar_form (z : C) :
  Cmod z * cos (phase z) = fst z /\ Cmod z * sin (phase z) = snd z.
Proof. unfold Cmod, Cnorm2, phase. apply atan2_polar. Qed.

Lemma atan2_unit (y x : R) :
  x * x + y * y = 1 -> cos (atan2 y x) = x /\ sin (atan2 y x) = y.
Proof.
  intros H. pose proof (atan2_polar y x) as [H1 H2].
  rewrite H, sqrt_1 in H1, H2. lra.
Qed.

Lemma sum_squares_zero (x y : R) : x * x + y * y = 0 -> x = 0 /\ y = 0.
Proof. intros H. split; nra. Qed.

(** The bottom phase lines the left column up: [|a| e^{-i bp} c = |c| a]. *)
Lemma bottom_phase_aligns (A K a1 a2 c1 c2 p q : R) :
  0 <= A -> 0 <= K ->
  A * A = a1 * a1 + a2 * a2 ->
  K * K = c1 * c1 + c2 * c2 ->
  K * A * p = c1 * a1 + c2 * a2 ->
  K * A * q = c2 * a1 - c1 * a2 ->
  A * (p * c1 + q * c2) = K * a1 /\ A * (p * c2 - q * c1) = K * a2.
Proof.
  intros HA0 HK0 HA HK Hp Hq.
  destruct (Req_dec A 0) as [-> | HnA].
  { assert (a1 = 0 /\ a2 = 0) as [-> ->] by (apply sum_squares_zero; lra).
    split; ring. }
  destruct (Req_dec K 0) as [-> | HnK].
  { assert (c1 = 0 /\ c2 = 0) as [-> ->] by (apply sum_squares_zero; lra).
    split; ring. }
  assert (HKA : K * A <> 0) by (apply Rmult_integral_contrapositive_currified; assumption).
  split; apply (Rmult_eq_reg_l (K * A)); try assumption; nsatz.
Qed.

(** ** The algebra behind the deconstruction *)

(** After the two phase corrections and the rotation, the top-left entry
    [(g1, g2)] has modulus one. *)
Lemma corner_unit (a1 a2 c1 c2 A K p q : R) :
  a1 * a1 + a2 * a2 + c1 * c1 + c2 * c2 = 1 ->
  A * A = a1 * a1 + a2 * a2 ->
  K * K = c1 * c1 + c2 * c2 ->
  p * p + q * q = 1 ->
  A * (p * c1 + q * c2) = K * a1 ->
  A * (p * c2 - q * c1) = K * a2 ->
  let g1 := A * a1 + K * (p * c1 + q * c2) in
  let g2 := A * a2 + K * (p * c2 - q * c1) in
  g1 * g1 + g2 * g2 = 1.
Proof. intros. subst g1 g2. nsatz. Qed.

(** ... the top-right entry vanishes ... *)
Lemma top_right_zero (a1 a2 b1 b2 c1 c2 d1 d2 A K p q pr qr : R) :
  a1 * a1 + a2 * a2 + c1 * c1 + c2 * c2 = 1 ->
  a1 * b1 + a2 * b2 + c1 * d1 + c2 * d2 = 0 ->
  a1 * b2 - a2 * b1 + c1 * d2 - c2 * d1 = 0 ->
  A * A = a1 * a1 + a2 * a2 ->
  K * K = c1 * c1 + c2 * c2 ->
  p * p + q * q = 1 ->
  pr * pr + qr * qr = 1 ->
  A * (p * c1 + q * c2) = K * a1 ->
  A * (p * c2 - q * c1) = K * a2 ->
  A * (b1 * pr + b2 * qr)
  + K * (p * (d1 * pr + d2 * qr) + q * (d2 * pr - d1 * qr)) = 0
  /\ A * (b2 * pr - b1 * qr)
     + K * (p * (d2 * pr - d1 * qr) - q * (d1 * pr + d2 * qr)) = 0.
Proof. intros. split; nsatz. Qed.

(** ... and the bottom-right entry [(h1, h2)] has modulus one. *)
Lemma diagonal_unit (a1 a2 b1 b2 c1 c2 d1 d2 A K p q pr qr : R) :
  a1 * a1 + a2 * a2 + c1 * c1 + c2 * c2 = 1 ->
  b1 * b1 + b2 * b2 + d1 * d1 + d2 * d2 = 1 ->
  a1 * b1 + a2 * b2 + c1 * d1 + c2 * d2 = 0 ->
  a1 * b2 - a2 * b1 + c1 * d2 - c2 * d1 = 0 ->
  A * A = a1 * a1 + a2 * a2 ->
  K * K = c1 * c1 + c2 * c2 ->
  p * p + q * q = 1 ->
  pr * pr + qr * qr = 1 ->
  A * (p * c1 + q * c2) = K * a1 ->
  A * (p * c2 - q * c1) = K * a2 ->
  let h1 := A * (p * (d1 * pr + d2 * qr) + q * (d2 * pr - d1 * qr))
            - K * (b1 * pr + b2 * qr) in
  let h2 := A * (p * (d2 * pr - d1 * qr) - q * (d1 * pr + d2 * qr))
            - K * (b2 * pr - b1 * qr) in
  h1 * h1 + h2 * h2 = 1.
Proof. intros. subst h1 h2. nsatz. Qed.

(** ** The angles reconstruct the matrix *)

(** A unitary matrix is, up to a global phase, the product of the phase
    matrix of its post-phase, the rotation matrix of its rotation and the
    phase matrix of its pre-phase. *)
Lemma angles_reconstruct (mat : mat2) :
  unitary mat ->
  up_to_phase mat (zyz (_deconstruct_single_qubit_matrix_into_angles mat)).
Proof.
  destruct mat as [[a1 a2] [b1 b2] [c1 c2] [d1 d2]]. intros Hu.
  destruct (unitary_columns _ _ _ _ _ _ _ _ Hu) as (col_a & col_b & col_re & col_im).
  rewrite angles_unfold. cbv zeta. cbn [m00 m01 m10 m11].
  set (rp := phase ((b1, b2) * Cconj (a1, a2)) + PI).
  set (bp := phase ((c1, c2) * Cconj (a1, a2))).
  rewrite Cmod_Cexp_mult.
  set (A := Cmod (a1, a2)). set (K := Cmod (c1, c2)).
  assert (HA : A * A = a1 * a1 + a2 * a2) by apply Cmod_sqr.
  assert (HK : K * K = c1 * c1 + c2 * c2) by apply Cmod_sqr.
  assert (HA0 : 0 <= A) by apply Cmod_nonneg.
  assert (HK0 : 0 <= K) by apply Cmod_nonneg.
  destruct (atan2_unit K A) as [Hcr Hsr]; [lra |].
  set (rot := atan2 K A) in *. rewrite Hcr, Hsr.
  (* the bottom phase *)
  assert (Hbp : K * A * cos bp = c1 * a1 + c2 * a2
                /\ K * A * sin bp = c2 * a1 - c1 * a2).
  { pose proof (polar_form ((c1, c2) * Cconj (a1, a2))) as [H1 H2].
    rewrite Cmod_mult, Cmod_Cconj in H1, H2. fold A K bp in H1, H2.
    unfold Cmult, Cconj in H1, H2. cbn [fst snd] in H1, H2.
    split; lra. }
  destruct Hbp as [Hp Hq].
  destruct (bottom_phase_aligns A K a1 a2 c1 c2 (cos bp) (sin bp))
    as [align_re align_im]; try assumption.
  pose proof (cos2_sin2 bp) as unit_b.
  pose proof (cos2_sin2 rp) as unit_r.
  set (p := cos bp) in *. set (q := sin bp) in *.
  set (pr := cos rp) in *. set (qr := sin rp) in *.
  pose (g1 := A * a1 + K * (p * c1 + q * c2)).
  pose (g2 := A * a2 + K * (p * c2 - q * c1)).
  pose (h1 := A * (p * (d1 * pr + d2 * qr) + q * (d2 * pr - d1 * qr))
              - K * (b1 * pr + b2 * qr)).
  pose (h2 := A * (p * (d2 * pr - d1 * qr) - q * (d1 * pr + d2 * qr))
              - K * (b2 * pr - b1 * qr)).
  replace (RtoC A * (a1, a2) + RtoC K * (Cexp (- bp) * (c1, c2)))%C
    with (g1, g2)
    by (unfold Cexp; rewrite cos_neg, sin_neg; subst g1 g2 p q; c_ring).
  replace (RtoC A * (Cexp (- bp) * ((d1, d2) * Cexp (- rp)))
           - RtoC K * ((b1, b2) * Cexp (- rp)))%C
    with (h1, h2)
    by (unfold Cexp; rewrite !cos_neg, !sin_neg; subst h1 h2 p q pr qr; c_ring).
  assert (Hg : g1 * g1 + g2 * g2 = 1)
    by (apply (corner_unit a1 a2 c1 c2 A K p q); assumption).
  assert (Hh : h1 * h1 + h2 * h2 = 1)
    by (apply (diagonal_unit a1 a2 b1 b2 c1 c2 d1 d2 A K p q pr qr); assumption).
  destruct (top_right_zero a1 a2 b1 b2 c1 c2 d1 d2 A K p q pr qr)
    as [Hx1 Hx2]; try assumption.
  set (dp := phase ((h1, h2) * Cconj (g1, g2))).
  assert (Hdp : cos dp = h1 * g1 + h2 * g2 /\ sin dp = h2 * g1 - h1 * g2).
  { pose proof (polar_form ((h1, h2) * Cconj (g1, g2))) as [H1 H2].
    fold dp in H1, H2.
    assert (Hm : Cmod ((h1, h2) * Cconj (g1, g2)) = 1).
    { unfold Cmod. rewrite Cnorm2_mult. unfold Cnorm2, Cconj. cbn [fst snd].
      replace ((h1 * h1 + h2 * h2) * (g1 * g1 + - g2 * - g2)) with 1 by nra.
      apply sqrt_1. }
    rewrite Hm in H1, H2. unfold Cmult, Cconj in H1, H2.
    cbn [fst snd] in H1, H2. split; lra. }
  destruct Hdp as [Hpd Hqd].
  exists (g1, g2). split.
  { unfold Cnorm2. cbn [fst snd]. exact Hg. }
  unfold zyz, dot, scale, _phase_matrix, _rotation_matrix, Cexp. cbv zeta.
  cbn [m00 m01 m10 m11].
  rewrite cos_plus, sin_plus, Hcr, Hsr.
  fold p q pr qr.
  set (pd := cos dp) in *. set (qd := sin dp) in *.
  assert (Hh1 : h1 = pd * g1 - qd * g2) by (rewrite Hpd, Hqd; nsatz).
  assert (Hh2 : h2 = pd * g2 + qd * g1) by (rewrite Hpd, Hqd; nsatz).
  assert (Hg1 : g1 = A * a1 + K * (p * c1 + q * c2)) by reflexivity.
  assert (Hg2 : g2 = A * a2 + K * (p * c2 - q * c1)) by reflexivity.
  assert (Hd1 : h1 = A * (p * (d1 * pr + d2 * qr) + q * (d2 * pr - d1 * qr))
                     - K * (b1 * pr + b2 * qr)) by reflexivity.
  assert (Hd2 : h2 = A * (p * (d2 * pr - d1 * qr) - q * (d1 * pr + d2 * qr))
                     - K * (b2 * pr - b1 * qr)) by reflexivity.
  assert (HAK : A * A + K * K = 1) by lra.
  clearbody g1 g2 h1 h2 pd qd p q pr qr.
  clear Hu col_a col_b col_re col_im HA HK HA0 HK0 Hcr Hsr Hp Hq Hpd Hqd Hg Hh dp.
  clearbody A K. clear rot rp bp.
  unfold Cplus, Cmult, RtoC. cbn [fst snd].
  apply mat2_eq; apply C_eq; nsatz.
Qed.

(** X1: for every unitary matrix the returned angles [(pre, rotation, post)]
    give the matrix back, up to a global phase, as phase matrix of [post]
    times rotation matrix of [rotation] times phase matrix of [pre]. *)
Theorem zyz_angles_of_unitary (mat : mat2) :
  unitary mat ->
  let '(pre_phase, rotation, post_phase) :=
    _deconstruct_single_qubit_matrix_into_angles mat in
  up_to_phase mat
    (dot (_phase_matrix post_phase)
         (dot (_rotation_matrix rotation) (_phase_matrix pre_phase))).
Proof.
  intros Hu. pose proof (angles_reconstruct mat Hu) as H.
  destruct (_deconstruct_single_qubit_matrix_into_angles mat) as [[pre rot] post].
  exact H.
Qed.

(** ** From angles to gates *)

(** *** Equality up to phase is a congruence *)

Lemma scale_1 (a : mat2) : scale (RtoC 1) a = a.
Proof. destruct a as [a b c d]. split_C. unfold scale. cbn [m00 m01 m10 m11]. apply mat2_eq; c_ring. Qed.

Lemma scale_scale (g h : C) (a : mat2) : scale g (scale h a) = scale (g * h) a.
Proof.
  destruct a as [a b c d]. split_C. unfold scale. cbn [m00 m01 m10 m11].
  apply mat2_eq; c_ring.
Qed.

Lemma dot_scale_l (g : C) (a b : mat2) : dot (scale g a) b = scale g (dot a b).
Proof.
  destruct a as [a1 a2 a3 a4], b as [b1 b2 b3 b4]. split_C.
  unfold scale, dot. cbn [m00 m01 m10 m11]. apply mat2_eq; c_ring.
Qed.

Lemma dot_scale_r (g : C) (a b : mat2) : dot a (scale g b) = scale g (dot a b).
Proof.
  destruct a as [a1 a2 a3 a4], b as [b1 b2 b3 b4]. split_C.
  unfold scale, dot. cbn [m00 m01 m10 m11]. apply mat2_eq; c_ring.
Qed.

Lemma dot_I2_l (a : mat2) : dot I2 a = a.
Proof.
  destruct a as [a b c d]. split_C. unfold dot, I2. cbn [m00 m01 m10 m11].
  apply mat2_eq; c_ring.
Qed.

Lemma dot_I2_r (a : mat2) : dot a I2 = a.
Proof.
  destruct a as [a b c d]. split_C. unfold dot, I2. cbn [m00 m01 m10 m11].
  apply mat2_eq; c_ring.
Qed.

Lemma up_to_phase_refl (a : mat2) : up_to_phase a a.
Proof.
  exists (RtoC 1). split; [unfold Cnorm2, RtoC; cbn; ring | symmetry; apply scale_1].
Qed.

Lemma up_to_phase_eq (a b : mat2) : a = b -> up_to_phase a b.
Proof. intros ->. apply up_to_phase_refl. Qed.

Lemma up_to_phase_sym (a b : mat2) : up_to_phase a b -> up_to_phase b a.
Proof.
  intros (g & Hg & ->). exists (Cconj g). split.
  - destruct g. unfold Cnorm2, Cconj in *. cbn [fst snd] in *. lra.
  - rewrite scale_scale.
    replace (Cconj g * g)%C with (RtoC 1); [symmetry; apply scale_1 |].
    destruct g as [x y]. unfold Cnorm2 in Hg. cbn [fst snd] in Hg.
    unfold Cmult, Cconj, RtoC. cbn [fst snd]. apply C_eq; lra.
Qed.

Lemma up_to_phase_trans (a b c : mat2) :
  up_to_phase a b -> up_to_phase b c -> up_to_phase a c.
Proof.
  intros (g & Hg & ->) (h & Hh & ->). exists (g * h)%C. split.
  - rewrite Cnorm2_mult, Hg, Hh. ring.
  - apply scale_scale.
Qed.

Lemma up_to_phase_dot (a a' b b' : mat2) :
  up_to_phase a a' -> up_to_phase b b' -> up_to_phase (dot a b) (dot a' b').
Proof.
  intros (g & Hg & ->) (h & Hh & ->). exists (g * h)%C. split.
  - rewrite Cnorm2_mult, Hg, Hh. ring.
  - rewrite dot_scale_l, dot_scale_r. apply scale_scale.
Qed.

(** *** Whole turns do not matter *)

Lemma half_turns (k : Z) :
  exists s : R, s * s = 1 /\ forall y : R,
    cos (y - IZR k * PI) = s * cos y /\ sin (y - IZR k * PI) = s * sin y.
Proof.
  assert (Hs : sin (IZR k * PI) = 0) by (apply sin_eq_0_1; exists k; reflexivity).
  exists (cos (IZR k * PI)). split.
  - pose proof (cos2_sin2 (IZR k * PI)) as H. rewrite Hs in H. lra.
  - intros y. rewrite cos_minus, sin_minus, Hs. split; ring.
Qed.

Lemma Cexp_whole_turns (k : Z) (x : R) :
  Cexp (2 * PI * (x - IZR k)) = Cexp (2 * PI * x).
Proof.
  unfold Cexp. destruct (half_turns k) as (s & Hs & H).
  replace (2 * PI * (x - IZR k)) with (2 * PI * x - IZR k * PI - IZR k * PI) by ring.
  destruct (H (2 * PI * x - IZR k * PI)) as [-> ->].
  destruct (H (2 * PI * x)) as [-> ->].
  apply C_eq; rewrite <- Rmult_assoc, Hs; ring.
Qed.

Lemma Cexp_signed_mod_1 (x : R) :
  Cexp (2 * PI * _signed_mod_1 x) = Cexp (2 * PI * x).
Proof.
  destruct (signed_mod_1_integer_shift x) as [k ->]. apply Cexp_whole_turns.
Qed.

Lemma Cexp_neg_signed_mod_1 (x : R) :
  Cexp (- (2 * PI * _signed_mod_1 x)) = Cexp (- (2 * PI * x)).
Proof.
  destruct (signed_mod_1_integer_shift x) as [k ->].
  replace (- (2 * PI * (x - IZR k))) with (2 * PI * (- x - IZR (- k)))
    by (rewrite opp_IZR; ring).
  rewrite Cexp_whole_turns. f_equal. ring.
Qed.

Lemma z_phasing_signed_mod_1 (x : R) :
  z_phasing (_signed_mod_1 x) = z_phasing x.
Proof. unfold z_phasing, _phase_matrix. rewrite Cexp_signed_mod_1. reflexivity. Qed.

Lemma xy_rotation_axis_signed_mod_1 (t x : R) :
  xy_rotation t (_signed_mod_1 x) = xy_rotation t x.
Proof.
  unfold xy_rotation. cbv zeta.
  rewrite Cexp_signed_mod_1, Cexp_neg_signed_mod_1. reflexivity.
Qed.

Lemma xy_rotation_turns_signed_mod_1 (x a : R) :
  up_to_phase (xy_rotation (_signed_mod_1 x) a) (xy_rotation x a).
Proof.
  destruct (signed_mod_1_integer_shift x) as [k ->].
  destruct (half_turns k) as (s & Hs & H).
  exists (RtoC s). split.
  - unfold Cnorm2, RtoC. cbn [fst snd]. lra.
  - unfold xy_rotation, scale. cbv zeta. cbn [m00 m01 m10 m11].
    replace (PI * (x - IZR k)) with (PI * x - IZR k * PI) by ring.
    destruct (H (PI * x)) as [-> ->].
    unfold Cexp. apply mat2_eq; c_ring.
Qed.

(** *** The two gates together are the ZYZ product *)

Lemma gates_of_angles (pre_phase rotation post_phase : R) :
  let tau := 2 * PI in
  dot (z_phasing ((post_phase + pre_phase) / tau))
      (xy_rotation (2 * rotation / tau) (0.25 - pre_phase / tau))
  = zyz (pre_phase, rotation, post_phase).
Proof.
  cbv zeta. unfold z_phasing, xy_rotation, zyz. cbv zeta.
  replace (2 * PI * ((post_phase + pre_phase) / (2 * PI)))
    with (post_phase + pre_phase) by (field; apply PI_neq0).
  replace (PI * (2 * rotation / (2 * PI))) with rotation
    by (field; apply PI_neq0).
  replace (2 * PI * (0.25 - pre_phase / (2 * PI))) with (PI / 2 - pre_phase)
    by (rewrite quarter_eq; field; apply PI_neq0).
  unfold dot, _phase_matrix, _rotation_matrix, Cexp. cbv zeta.
  cbn [m00 m01 m10 m11].
  replace (- (PI / 2 - pre_phase)) with (pre_phase - PI / 2) by ring.
  rewrite !cos_minus, !sin_minus, cos_plus, sin_plus, cos_PI2, sin_PI2.
  pose proof (cos2_sin2 pre_phase) as Hpre.
  unfold Cminus; unfold Cplus, Copp, Cmult, RtoC, Ci. cbn [fst snd].
  apply mat2_eq; apply C_eq; nsatz.
Qed.

Lemma turns_reconstruct (mat : mat2) :
  unitary mat ->
  up_to_phase
    (dot (z_phasing (total_z_turn_of mat))
         (xy_rotation (xy_turn_of mat) (xy_phase_turn_of mat)))
    mat.
Proof.
  intros Hu. apply up_to_phase_sym.
  eapply up_to_phase_trans; [apply angles_reconstruct, Hu |].
  unfold total_z_turn_of, xy_turn_of, xy_phase_turn_of,
    _deconstruct_single_qubit_matrix_into_gate_turns.
  destruct (_deconstruct_single_qubit_matrix_into_angles mat)
    as [[pre rot] post].
  cbv zeta. cbn [fst snd].
  rewrite <- gates_of_angles. cbv zeta.
  rewrite z_phasing_signed_mod_1, xy_rotation_axis_signed_mod_1.
  apply up_to_phase_dot; [apply up_to_phase_refl |].
  apply up_to_phase_sym, xy_rotation_turns_signed_mod_1.
Qed.

(** A half turn about an XY axis absorbs a phase gate. *)
Lemma half_turn_absorbs (p z : R) :
  up_to_phase (xy_rotation 0.5 (p + z / 2))
              (dot (z_phasing z) (xy_rotation (-0.5) p)).
Proof.
  exists (- Cexp (- (PI * z)))%C. split.
  - unfold Cnorm2, Copp, Cexp. cbn [fst snd].
    pose proof (cos2_sin2 (- (PI * z))). lra.
  - unfold xy_rotation, z_phasing, _phase_matrix, dot, scale. cbv zeta.
    cbn [m00 m01 m10 m11].
    replace (PI * 0.5) with (PI / 2) by lra.
    replace (PI * -0.5) with (- (PI / 2)) by lra.
    replace (2 * PI * (p + z / 2)) with (2 * PI * p + PI * z) by field.
    replace (2 * PI * z) with (PI * z + PI * z) by ring.
    unfold Cexp.
    rewrite !cos_neg, !sin_neg, !cos_plus, !sin_plus, cos_PI2, sin_PI2.
    pose proof (cos2_sin2 (PI * z)) as Hz.
    set (cz := cos (PI * z)) in *. set (sz := sin (PI * z)) in *.
    set (cp := cos (2 * PI * p)). set (sp := sin (2 * PI * p)).
    unfold Cminus; unfold Cplus, Copp, Cmult, RtoC, Ci. cbn [fst snd].
    apply mat2_eq; apply C_eq; nsatz.
Qed.

(** ** Single-qubit synthesis reconstructs the matrix *)

Section Reconstruction.

Variable tdb : ops.NativeGate -> R.
Variable gate_matrix : ops.NativeGate -> mat2.
Hypothesis semantics : gate_semantics gate_matrix.
Hypothesis sound : sound_bound tdb gate_matrix.

Lemma dropped_is_identity (g : ops.NativeGate) :
  kept tdb 0 g = false -> up_to_phase (gate_matrix g) I2.
Proof. intros H. apply sound. apply Rgtb_false in H. exact H. Qed.

Lemma filtered_circuit (t p z : R) :
  up_to_phase
    (circuit_matrix gate_matrix
       (filter (kept tdb 0) [ops.XYGate t p; ops.ZGate z]))
    (dot (z_phasing z) (xy_rotation t p)).
Proof.
  destruct semantics as [Hxy Hz].
  cbn [filter].
  destruct (kept tdb 0 (ops.XYGate t p)) eqn:Kx;
    destruct (kept tdb 0 (ops.ZGate z)) eqn:Kz;
    unfold circuit_matrix; cbn [fold_left]; rewrite ?dot_I2_r.
  - apply up_to_phase_dot; [apply Hz | apply Hxy].
  - rewrite <- (dot_I2_l (gate_matrix (ops.XYGate t p))).
    apply up_to_phase_dot; [| apply Hxy].
    eapply up_to_phase_trans;
      [apply up_to_phase_sym, dropped_is_identity, Kz | apply Hz].
  - rewrite <- (dot_I2_r (gate_matrix (ops.ZGate z))).
    apply up_to_phase_dot; [apply Hz |].
    eapply up_to_phase_trans;
      [apply up_to_phase_sym, dropped_is_identity, Kx | apply Hxy].
  - rewrite <- (dot_I2_l I2) at 1.
    apply up_to_phase_dot.
    + eapply up_to_phase_trans;
        [apply up_to_phase_sym, dropped_is_identity, Kz | apply Hz].
    + eapply up_to_phase_trans;
        [apply up_to_phase_sym, dropped_is_identity, Kx | apply Hxy].
Qed.

(** C1: for every 2x2 unitary matrix, the gates returned at tolerance 0,
    multiplied in the order they are applied, give the matrix back up to a
    global phase of unit magnitude. *)
Theorem synthesis_reconstructs_matrix (mat : mat2) :
  unitary mat ->
  up_to_phase
    (circuit_matrix gate_matrix (single_qubit_matrix_to_native_gates tdb mat 0))
    mat.
Proof.
  intros Hu.
  eapply up_to_phase_trans; [| apply turns_reconstruct, Hu].
  rewrite single_qubit_unfold. unfold candidates.
  destruct ((length (filter (kept tdb 0) _) =? 2)%nat
            && Rgeb (Rabs (xy_turn_of mat)) (0.5 - 0)) eqn:Habs.
  - apply andb_true_iff in Habs. destruct Habs as [_ Habs].
    apply Rgeb_true in Habs.
    assert (Ht : xy_turn_of mat = -0.5).
    { pose proof (gate_turns_range mat) as [Hr _].
      unfold Rabs in Habs. destruct (Rcase_abs (xy_turn_of mat)); lra. }
    rewrite Ht.
    unfold circuit_matrix. cbn [fold_left]. rewrite dot_I2_r.
    eapply up_to_phase_trans; [apply semantics | apply half_turn_absorbs].
  - apply filtered_circuit.
Qed.

End Reconstruction.

(** ** Flattened sequences *)

Lemma flatten_leaves {QubitId : Type} (l : list (Operation QubitId)) :
  flatten_op_tree (Node (map Leaf l)) = l.
Proof.
  cbn [flatten_op_tree]. induction l as [| o l IH]; [reflexivity |].
  cbn [map flat_map flatten_op_tree]. cbn [app]. f_equal. exact IH.
Qed.

Lemma flatten_cons {QubitId : Type} (t : OP_TREE QubitId) (ts : list (OP_TREE QubitId)) :
  flatten_op_tree (Node (t :: ts))
  = flatten_op_tree t ++ flatten_op_tree (Node ts).
Proof. reflexivity. Qed.

Lemma flatten_nil {QubitId : Type} :
  flatten_op_tree (@Node QubitId []) = [].
Proof. reflexivity. Qed.

Lemma flatten_inverse_leaves {QubitId : Type} (l : list (Operation QubitId)) :
  flatten_op_tree (inverse_of_invertable_op_tree (Node (map Leaf l)))
  = map inverse_op (rev l).
Proof.
  cbn [inverse_of_invertable_op_tree].
  rewrite map_map. cbn [inverse_of_invertable_op_tree].
  rewrite <- map_rev, <- (map_map inverse_op Leaf).
  apply flatten_leaves.
Qed.

Lemma do_single_on_flat {QubitId : Type} tdb tolerance u (q : QubitId) :
  flatten_op_tree (do_single_on tdb tolerance u q)
  = synthesis_on tdb tolerance u q.
Proof.
  unfold do_single_on, synthesis_on.
  rewrite <- (map_map (fun gate => on (ops.Native gate) [q]) Leaf).
  apply flatten_leaves.
Qed.

Lemma parity_interaction_flat {QubitId : Type} (q0 q1 : QubitId)
  tolerance rads framing :
  flatten_op_tree (parity_interaction q0 q1 tolerance rads framing)
  = parity_interaction_spec q0 q1 tolerance rads framing.
Proof.
  unfold parity_interaction, parity_interaction_spec.
  destruct (Rltb (Rabs rads) tolerance); [reflexivity |].
  cbv zeta.
  replace (rads * 4 / PI) with (4 * rads / PI) by (field; apply PI_neq0).
  replace (- (4 * rads / PI) / 2) with (-2 * rads / PI)
    by (field; apply PI_neq0).
  destruct framing as [g |]; reflexivity.
Qed.

(** C2: the two-qubit synthesis returns, in order, the synthesis of [b1] on
    [q1] and of [b0] on [q0], the x interaction framed by [Y ** -0.5], the y
    interaction framed by [X ** 0.5], the z interaction without framing, and
    the synthesis of [a1] on [q1] and of [a0] on [q0]; an interaction below
    the tolerance yields nothing, any other one the framing gate on both
    qubits, [CZ ** (4 rads / pi)], [Z ** (-2 rads / pi)] on each qubit and the
    inverse of the framing gate on both qubits. *)
Theorem two_qubit_sequence {QubitId : Type} tdb kak_decomposition
  (q0 q1 : QubitId) (mat : mat4) (tolerance : R) :
  let '(_, (a1, a0), (x, y, z), (b1, b0)) := kak_decomposition mat tolerance in
  two_qubit_matrix_to_native_gates tdb kak_decomposition q0 q1 mat tolerance
  = (synthesis_on tdb tolerance b1 q1 ++ synthesis_on tdb tolerance b0 q0)
    ++ parity_interaction_spec q0 q1 tolerance x (Some (ops.Pow ops.Y (-0.5)))
    ++ parity_interaction_spec q0 q1 tolerance y (Some (ops.Pow ops.X 0.5))
    ++ parity_interaction_spec q0 q1 tolerance z None
    ++ (synthesis_on tdb tolerance a1 q1 ++ synthesis_on tdb tolerance a0 q0).
Proof.
  unfold two_qubit_matrix_to_native_gates.
  destruct (kak_decomposition mat tolerance)
    as [[[g [a1 a0]] [[x y] z]] [b1 b0]].
  cbv zeta.
  rewrite !flatten_cons, flatten_nil, !parity_interaction_flat,
    !do_single_on_flat, !app_nil_r.
  reflexivity.
Qed.

(** *** The controlled operation *)

Lemma item_last_snoc {A : Type} (l : list A) (x : A) :
  item_last (l ++ [x]) = Returns x.
Proof. unfold item_last. rewrite rev_app_distr. reflexivity. Qed.

Lemma nonempty_snoc {A : Type} (l : list A) :
  l <> [] -> exists l' x, l = l' ++ [x].
Proof.
  intros H. destruct (exists_last H) as (l' & x & ->). exists l', x. reflexivity.
Qed.

Lemma truthy_snoc {A : Type} (l : list A) (x : A) : truthy (l ++ [x]) = true.
Proof. destruct l; reflexivity. Qed.

Lemma del_last_snoc {A : Type} (l : list A) (x : A) :
  del_last (l ++ [x]) = Returns l.
Proof.
  unfold del_last. rewrite removelast_last.
  destruct l; reflexivity.
Qed.

Lemma drop_trailing_phase_snoc (l : list ops.NativeGate) (g : ops.NativeGate) :
  drop_trailing_phase (l ++ [g]) = if is_ZGate g then l else l ++ [g].
Proof.
  unfold drop_trailing_phase. rewrite rev_app_distr. cbn [rev app].
  destruct g; cbn [is_ZGate]; [reflexivity |].
  apply rev_involutive.
Qed.

(** The border gates after lines 185-188, which never raise. *)
Lemma border_gates (u_gates : list ops.NativeGate) :
  (trailing_z <-
     (if truthy u_gates
      then last_gate <- item_last u_gates ;; Returns (is_ZGate last_gate)
      else Returns false) ;;
   if trailing_z then del_last u_gates else Returns u_gates)
  = Returns (drop_trailing_phase u_gates).
Proof.
  destruct u_gates as [| g0 l0] eqn:E; [reflexivity |].
  rewrite <- E.
  destruct (nonempty_snoc u_gates) as (l & g & ->); [congruence |].
  rewrite truthy_snoc, item_last_snoc, drop_trailing_phase_snoc.
  cbn [bind]. destruct (is_ZGate g); [apply del_last_snoc | reflexivity].
Qed.

Lemma controlled_op_unfold {QubitId : Type} tdb eig
  (control target : QubitId) (operation : mat2) (tolerance : R) :
  controlled_op_to_native_gates tdb eig control target operation tolerance
  = let '(u, z_phase, global_phase) :=
      single_qubit_op_to_framed_phase_form eig operation in
    if Rleb (Cmod (z_phase - RtoC 1)) tolerance then Returns []
    else
      let ops_before :=
        map (fun gate => on (ops.Native gate) [target])
            (drop_trailing_phase
               (single_qubit_matrix_to_native_gates tdb u tolerance)) in
      Returns
        (ops_before
         ++ [on (ops.Pow ops.CZ (phase z_phase / PI)) [control; target]]
         ++ (if Rgtb (Cmod (global_phase - RtoC 1)) tolerance
             then [on (ops.Pow ops.Z (phase global_phase / PI)) [control]]
             else [])
         ++ map inverse_op (rev ops_before)).
Proof.
  unfold controlled_op_to_native_gates.
  destruct (single_qubit_op_to_framed_phase_form eig operation)
    as [[u z_phase] global_phase].
  destruct (Rleb (Cmod (z_phase - RtoC 1)) tolerance); [reflexivity |].
  cbv zeta.
  set (u_gates := single_qubit_matrix_to_native_gates tdb u tolerance).
  pose proof (border_gates u_gates) as Hb.
  destruct (if truthy u_gates
            then last_gate <- item_last u_gates ;; Returns (is_ZGate last_gate)
            else Returns false) as [tz | e]; [| discriminate].
  cbn [bind] in Hb |- *. rewrite Hb. cbn [bind].
  f_equal.
  rewrite !flatten_cons, flatten_nil, app_nil_r.
  rewrite <- (map_map (fun gate => on (ops.Native gate) [target]) Leaf).
  rewrite flatten_inverse_leaves, flatten_leaves.
  destruct (Rgtb (Cmod (global_phase - RtoC 1)) tolerance); reflexivity.
Qed.

(** C3: when [|z_phase - 1|] exceeds the tolerance, the controlled operation
    is the border gates of [u] on the target without a trailing [ZGate], then
    [CZ ** (phase(z_phase) / pi)] on control and target, then, only when
    [|global_phase - 1|] exceeds the tolerance, [Z ** (phase(global_phase) /
    pi)] on the control, then the inverses of the border operations in
    reverse order. *)
Theorem controlled_op_sequence {QubitId : Type} tdb eig
  (control target : QubitId) (operation : mat2) (tolerance : R) :
  let '(u, z_phase, global_phase) :=
    single_qubit_op_to_framed_phase_form eig operation in
  Cmod (z_phase - RtoC 1) > tolerance ->
  let ops_before :=
    map (fun gate => on (ops.Native gate) [target])
        (drop_trailing_phase
           (single_qubit_matrix_to_native_gates tdb u tolerance)) in
  controlled_op_to_native_gates tdb eig control target operation tolerance
  = Returns
      (ops_before
       ++ [on (ops.Pow ops.CZ (phase z_phase / PI)) [control; target]]
       ++ (if Rgtb (Cmod (global_phase - RtoC 1)) tolerance
           then [on (ops.Pow ops.Z (phase global_phase / PI)) [control]]
           else [])
       ++ map inverse_op (rev ops_before)).
Proof.
  rewrite controlled_op_unfold.
  destruct (single_qubit_op_to_framed_phase_form eig operation)
    as [[u z_phase] global_phase].
  intros Hz. apply Rleb_false in Hz. rewrite Hz. reflexivity.
Qed.

(** C10: the controlled synthesis never raises; when the synthesis of [u]
    returns no gate, the result is the CZ power alone, followed by the
    kickback on the control when [|global_phase - 1|] exceeds the
    tolerance. *)
Theorem controlled_op_empty_border {QubitId : Type} tdb eig
  (control target : QubitId) (operation : mat2) (tolerance : R) :
  (exists operations,
     controlled_op_to_native_gates tdb eig control target operation tolerance
     = Returns operations)
  /\
  let '(u, z_phase, global_phase) :=
    single_qubit_op_to_framed_phase_form eig operation in
  (Cmod (z_phase - RtoC 1) > tolerance ->
   single_qubit_matrix_to_native_gates tdb u tolerance = [] ->
   controlled_op_to_native_gates tdb eig control target operation tolerance
   = Returns
       (on (ops.Pow ops.CZ (phase z_phase / PI)) [control; target]
        :: (if Rgtb (Cmod (global_phase - RtoC 1)) tolerance
            then [on (ops.Pow ops.Z (phase global_phase / PI)) [control]]
            else []))).
Proof.
  rewrite controlled_op_unfold.
  destruct (single_qubit_op_to_framed_phase_form eig operation)
    as [[u z_phase] global_phase].
  split.
  - destruct (Rleb (Cmod (z_phase - RtoC 1)) tolerance); eexists; reflexivity.
  - intros Hz Hempty. apply Rleb_false in Hz. rewrite Hz, Hempty.
    cbv zeta. cbn [drop_trailing_phase rev map app]. rewrite app_nil_r.
    reflexivity.
Qed.

(** ** The bound and the matrices used on concrete inputs *)

Lemma single_qubit_at tdb (mat : mat2) (tolerance t p z : R) :
  _deconstruct_single_qubit_matrix_into_gate_turns mat = (t, p, z) ->
  single_qubit_matrix_to_native_gates tdb mat tolerance
  = if (length (filter (kept tdb tolerance) [ops.XYGate t p; ops.ZGate z])
        =? 2)%nat && Rgeb (Rabs t) (0.5 - tolerance)
    then [ops.XYGate 0.5 (p + z / 2)]
    else filter (kept tdb tolerance) [ops.XYGate t p; ops.ZGate z].
Proof.
  intros H. unfold single_qubit_matrix_to_native_gates. rewrite H. reflexivity.
Qed.

Lemma candidates_at (mat : mat2) (t p z : R) :
  _deconstruct_single_qubit_matrix_into_gate_turns mat = (t, p, z) ->
  candidates mat = [ops.XYGate t p; ops.ZGate z].
Proof.
  intros H. unfold candidates, xy_turn_of, xy_phase_turn_of, total_z_turn_of.
  rewrite H. reflexivity.
Qed.

Lemma turns_bound_nonnegative : nonnegative_bound turns_bound.
Proof.
  intros [t a | t]; cbn [turns_bound]; pose proof (Rabs_pos t); lra.
Qed.

Lemma Rabs_neg_half : Rabs (-0.5) = 0.5.
Proof. rewrite Rabs_left; lra. Qed.

Lemma Rabs_neg_quarter : Rabs (-0.25) = 0.25.
Proof. rewrite Rabs_left; lra. Qed.

Lemma native_matrix_semantics : gate_semantics native_matrix.
Proof. split; intros; apply up_to_phase_refl. Qed.

Lemma turns_bound_sound : sound_bound turns_bound native_matrix.
Proof.
  intros g Hg. apply up_to_phase_eq.
  assert (Hz : forall t, Rabs t * 3.5 <= 0 -> t = 0).
  { intros t Ht. pose proof (Rabs_pos t).
    destruct (Req_dec t 0) as [-> | Hn]; [reflexivity |].
    pose proof (Rabs_pos_lt t Hn). lra. }
  destruct g as [t a | t]; cbn [turns_bound] in Hg; apply Hz in Hg; subst t;
    cbn [native_matrix].
  - unfold xy_rotation, I2. cbv zeta. rewrite Rmult_0_r, cos_0, sin_0.
    unfold Cexp. apply mat2_eq; c_ring.
  - unfold z_phasing, _phase_matrix, I2, Cexp.
    rewrite Rmult_0_r, cos_0, sin_0. reflexivity.
Qed.

Lemma unitary_pauli_X : unitary pauli_X.
Proof.
  unfold unitary, pauli_X, dot, adjoint, I2. cbn [m00 m01 m10 m11].
  apply mat2_eq; c_ring.
Qed.

Lemma unitary_phased_flip : unitary phased_flip.
Proof.
  unfold unitary, phased_flip, dot, adjoint, I2. cbn [m00 m01 m10 m11].
  apply mat2_eq; c_ring.
Qed.

(** *** The bit flip *)

Lemma half_turn_about_minus_X : xy_rotation 0.5 (-0.5) = scale Ci pauli_X.
Proof.
  unfold xy_rotation, scale, pauli_X, Cexp. cbv zeta. cbn [m00 m01 m10 m11].
  replace (PI * 0.5) with (PI / 2) by lra.
  replace (2 * PI * -0.5) with (- PI) by lra.
  rewrite Ropp_involutive, cos_neg, sin_neg, cos_PI, sin_PI, cos_PI2, sin_PI2.
  apply mat2_eq; c_ring.
Qed.

Lemma bit_flip_gates tdb (tolerance : R) :
  0 <= tolerance ->
  tdb (ops.XYGate (-0.5) (-0.25)) > tolerance ->
  tdb (ops.ZGate (-0.5)) > tolerance ->
  single_qubit_matrix_to_native_gates tdb pauli_X tolerance
  = [ops.XYGate 0.5 (-0.5)].
Proof.
  intros Htol Hxy Hz.
  rewrite (single_qubit_at _ _ _ _ _ _ turns_pauli_X).
  cbn [filter]. unfold kept.
  apply Rgtb_true in Hxy, Hz. rewrite Hxy, Hz. cbn [length Nat.eqb andb].
  assert (Hh : Rgeb (Rabs (-0.5)) (0.5 - tolerance) = true)
    by (apply Rgeb_true; rewrite Rabs_neg_half; lra).
  rewrite Hh. do 2 f_equal. lra.
Qed.

Lemma half_turn_about_minus_X_is_back_turn :
  xy_rotation 0.5 (-0.5) = xy_rotation (-0.5) 0.
Proof.
  unfold xy_rotation, Cexp. cbv zeta.
  replace (PI * 0.5) with (PI / 2) by lra.
  replace (PI * -0.5) with (- (PI / 2)) by lra.
  replace (2 * PI * -0.5) with (- PI) by lra.
  replace (2 * PI * 0) with 0 by lra.
  rewrite Ropp_involutive, Ropp_0.
  rewrite !cos_neg, !sin_neg, cos_PI, sin_PI, cos_PI2, sin_PI2, cos_0, sin_0.
  apply mat2_eq; c_ring.
Qed.

Lemma half_turn_about_minus_X_is_opposite :
  xy_rotation 0.5 (-0.5) = scale (RtoC (-1)) (xy_rotation 0.5 0).
Proof.
  unfold xy_rotation, scale, Cexp. cbv zeta. cbn [m00 m01 m10 m11].
  replace (PI * 0.5) with (PI / 2) by lra.
  replace (2 * PI * -0.5) with (- PI) by lra.
  replace (2 * PI * 0) with 0 by lra.
  rewrite Ropp_involutive, Ropp_0.
  rewrite cos_neg, sin_neg, cos_PI, sin_PI, cos_PI2, sin_PI2, cos_0, sin_0.
  apply mat2_eq; c_ring.
Qed.

(** C8: with both candidates above the tolerance, the bit flip gives exactly
    one gate, an [XYGate] with [turns = 0.5].  Its axis phase is returned as
    [-0.5]: the gate is [XYGate(turns=0.5, axis_phase_turns=0)] up to sign
    (it is the half turn about the same axis taken backwards, and its matrix
    is minus that of [XYGate(0.5, 0)]), so the two are one gate up to a
    global phase; applying it gives the bit flip up to a global phase. *)
Theorem bit_flip_synthesis tdb gate_matrix :
  tdb (ops.XYGate (-0.5) (-0.25)) > 1e-8 ->
  tdb (ops.ZGate (-0.5)) > 1e-8 ->
  gate_semantics gate_matrix ->
  single_qubit_matrix_to_native_gates tdb pauli_X 1e-8
  = [ops.XYGate 0.5 (-0.5)]
  /\ xy_rotation 0.5 (-0.5) = xy_rotation (-0.5) 0
  /\ xy_rotation 0.5 (-0.5) = scale (RtoC (-1)) (xy_rotation 0.5 0)
  /\ up_to_phase (gate_matrix (ops.XYGate 0.5 (-0.5)))
       (gate_matrix (ops.XYGate 0.5 0))
  /\ up_to_phase (circuit_matrix gate_matrix [ops.XYGate 0.5 (-0.5)]) pauli_X.
Proof.
  intros Hxy Hz [Hsem _].
  split; [apply bit_flip_gates; [lra | assumption | assumption] |].
  split; [exact half_turn_about_minus_X_is_back_turn |].
  split; [exact half_turn_about_minus_X_is_opposite |].
  split.
  - eapply up_to_phase_trans; [apply Hsem |].
    eapply up_to_phase_trans; [| apply up_to_phase_sym, Hsem].
    rewrite half_turn_about_minus_X_is_opposite.
    exists (RtoC (-1)).
    split; [unfold Cnorm2, RtoC; cbn [fst snd]; ring | reflexivity].
  - unfold circuit_matrix. cbn [fold_left]. rewrite dot_I2_r.
    eapply up_to_phase_trans; [apply Hsem |].
    rewrite half_turn_about_minus_X.
    exists Ci. split; [unfold Cnorm2, Ci; cbn [fst snd]; ring | reflexivity].
Qed.

(** The bit flip with the bound and the matrices of the concrete gates. *)
Lemma bit_flip_synthesis_witness :
  single_qubit_matrix_to_native_gates turns_bound pauli_X 1e-8
  = [ops.XYGate 0.5 (-0.5)]
  /\ xy_rotation 0.5 (-0.5) = xy_rotation (-0.5) 0
  /\ xy_rotation 0.5 (-0.5) = scale (RtoC (-1)) (xy_rotation 0.5 0)
  /\ up_to_phase (native_matrix (ops.XYGate 0.5 (-0.5)))
       (native_matrix (ops.XYGate 0.5 0))
  /\ up_to_phase (circuit_matrix native_matrix [ops.XYGate 0.5 (-0.5)]) pauli_X.
Proof.
  apply (bit_flip_synthesis turns_bound native_matrix).
  - cbn [turns_bound]. rewrite Rabs_neg_half. lra.
  - cbn [turns_bound]. rewrite Rabs_neg_half. lra.
  - exact native_matrix_semantics.
Defined.

(** ** The absorbed axis phase *)

Lemma phased_flip_gates tdb (tolerance : R) :
  0 <= tolerance ->
  tdb (ops.XYGate (-0.5) (-0.5)) > tolerance ->
  tdb (ops.ZGate (-0.25)) > tolerance ->
  single_qubit_matrix_to_native_gates tdb phased_flip tolerance
  = [ops.XYGate 0.5 (-0.625)].
Proof.
  intros Htol Hxy Hz.
  rewrite (single_qubit_at _ _ _ _ _ _ turns_phased_flip).
  cbn [filter]. unfold kept.
  apply Rgtb_true in Hxy, Hz. rewrite Hxy, Hz. cbn [length Nat.eqb andb].
  assert (Hh : Rgeb (Rabs (-0.5)) (0.5 - tolerance) = true)
    by (apply Rgeb_true; rewrite Rabs_neg_half; lra).
  rewrite Hh. do 2 f_equal. lra.
Qed.

(** C9: the axis phase of the absorbing gate is [xy_phase_turn +
    total_z_turn / 2] as it stands; it lies in [-0.75, 0.75), and for the
    unitary [[0, i], [1, 0]] it is [-0.625], outside [-0.5, 0.5). *)
Theorem absorbed_axis_phase_not_canonical tdb (tolerance : R) :
  (forall mat,
     length (filter (kept tdb tolerance) (candidates mat)) = 2%nat ->
     Rabs (xy_turn_of mat) >= 0.5 - tolerance ->
     exists a,
       single_qubit_matrix_to_native_gates tdb mat tolerance
       = [ops.XYGate 0.5 a]
       /\ a = xy_phase_turn_of mat + total_z_turn_of mat / 2
       /\ -0.75 <= a < 0.75)
  /\ unitary phased_flip
  /\ (0 <= tolerance ->
      tdb (ops.XYGate (-0.5) (-0.5)) > tolerance ->
      tdb (ops.ZGate (-0.25)) > tolerance ->
      single_qubit_matrix_to_native_gates tdb phased_flip tolerance
      = [ops.XYGate 0.5 (-0.625)]
      /\ ~ (-0.5 <= -0.625 < 0.5)).
Proof.
  split; [| split].
  - intros mat Hlen Habs.
    exists (xy_phase_turn_of mat + total_z_turn_of mat / 2).
    split; [apply single_qubit_absorbed; assumption |].
    split; [reflexivity |].
    pose proof (gate_turns_range mat) as (_ & Hp & Hz). lra.
  - exact unitary_phased_flip.
  - intros Htol Hxy Hz. split; [apply phased_flip_gates; assumption | lra].
Qed.

(** [[0, i], [1, 0]] at tolerance 0 with the concrete bound. *)
Lemma absorbed_axis_phase_witness :
  single_qubit_matrix_to_native_gates turns_bound phased_flip 0
  = [ops.XYGate 0.5 (-0.625)]
  /\ ~ (-0.5 <= -0.625 < 0.5).
Proof.
  apply (absorbed_axis_phase_not_canonical turns_bound 0).
  - lra.
  - cbn [turns_bound]. rewrite Rabs_neg_half. lra.
  - cbn [turns_bound]. rewrite Rabs_neg_quarter. lra.
Defined.

(** *** Concrete inputs at the tolerance boundary *)

Lemma pauli_Z_gates :
  single_qubit_matrix_to_native_gates turns_bound pauli_Z 0
  = [ops.ZGate (-0.5)].
Proof.
  rewrite (single_qubit_at _ _ _ _ _ _ turns_pauli_Z).
  cbn [filter]. unfold kept. cbn [turns_bound].
  assert (H1 : Rgtb (Rabs 0 * 3.5) 0 = false)
    by (apply Rgtb_false; rewrite Rabs_R0; lra).
  assert (H2 : Rgtb (Rabs (-0.5) * 3.5) 0 = true)
    by (apply Rgtb_true; rewrite Rabs_neg_half; lra).
  rewrite H1, H2. reflexivity.
Qed.

Lemma identity_gates (tolerance : R) :
  0 <= tolerance ->
  single_qubit_matrix_to_native_gates turns_bound identity_matrix tolerance
  = [].
Proof.
  intros Htol.
  rewrite (single_qubit_at _ _ _ _ _ _ turns_identity).
  cbn [filter]. unfold kept. cbn [turns_bound].
  assert (H1 : Rgtb (Rabs 0 * 3.5) tolerance = false)
    by (apply Rgtb_false; rewrite Rabs_R0; lra).
  rewrite H1. reflexivity.
Qed.

(** C5 as stated fails: for the Pauli Z matrix at tolerance 0 the XY
    candidate has a bound equal to the tolerance, and it is not kept. *)
Lemma bound_equal_to_tolerance_is_dropped :
  candidates pauli_Z = [ops.XYGate 0 (-0.25); ops.ZGate (-0.5)]
  /\ turns_bound (ops.XYGate 0 (-0.25)) = 0
  /\ ~ In (ops.XYGate 0 (-0.25))
         (single_qubit_matrix_to_native_gates turns_bound pauli_Z 0).
Proof.
  split; [apply candidates_at, turns_pauli_Z |].
  split; [cbn [turns_bound]; rewrite Rabs_R0; lra |].
  rewrite pauli_Z_gates. intros [H | []]. discriminate.
Qed.

(** C6 as stated fails: at tolerance 0 both candidates of the identity
    matrix are elided. *)
Lemma elision_at_tolerance_zero :
  0 <= 0
  /\ candidates identity_matrix = [ops.XYGate 0 0.25; ops.ZGate 0]
  /\ filter (kept turns_bound 0) (candidates identity_matrix) = []
  /\ single_qubit_matrix_to_native_gates turns_bound identity_matrix 0 = [].
Proof.
  split; [lra |].
  split; [apply candidates_at, turns_identity |].
  split; [| apply identity_gates; lra].
  rewrite (candidates_at _ _ _ _ turns_identity).
  cbn [filter]. unfold kept. cbn [turns_bound].
  assert (H1 : Rgtb (Rabs 0 * 3.5) 0 = false)
    by (apply Rgtb_false; rewrite Rabs_R0; lra).
  rewrite H1. reflexivity.
Qed.

(** ** Controlled operations on concrete inputs *)

Lemma Cdiv_real (x y : R) : y <> 0 -> (RtoC x / RtoC y)%C = RtoC (x / y).
Proof.
  intros Hy. unfold Cdiv, Cinv, Cmult, Cnorm2, RtoC. cbn [fst snd].
  apply C_eq; field; assumption.
Qed.

Lemma Cmod_real_minus_1 (x : R) : Cmod (RtoC x - RtoC 1) = Rabs (x - 1).
Proof.
  unfold Cmod, Cnorm2, Cminus, Cplus, Copp, RtoC. cbn [fst snd].
  replace ((x + - (1)) * (x + - (1)) + (0 + - 0) * (0 + - 0))
    with (Rsqr (x - 1)) by (unfold Rsqr; ring).
  apply sqrt_Rsqr_abs.
Qed.

Lemma adjoint_I2 : adjoint I2 = identity_matrix.
Proof.
  unfold adjoint, I2, identity_matrix. cbn [m00 m01 m10 m11].
  apply mat2_eq; c_ring.
Qed.

Lemma adjoint_pauli_X : adjoint pauli_X = pauli_X.
Proof.
  unfold adjoint, pauli_X. cbn [m00 m01 m10 m11]. apply mat2_eq; c_ring.
Qed.

Lemma framed_diagonal_pauli_Z :
  single_qubit_op_to_framed_phase_form diagonal_eig pauli_Z
  = (identity_matrix, RtoC (-1), RtoC 1).
Proof.
  unfold single_qubit_op_to_framed_phase_form, diagonal_eig, pauli_Z.
  cbn [m00 m11 fst snd]. rewrite adjoint_I2, Cdiv_real by lra.
  do 2 f_equal. unfold RtoC. apply C_eq; lra.
Qed.

Lemma framed_swapped_pauli_Z :
  single_qubit_op_to_framed_phase_form swapped_eig pauli_Z
  = (pauli_X, RtoC (-1), RtoC (-1)).
Proof.
  unfold single_qubit_op_to_framed_phase_form, swapped_eig, pauli_Z.
  cbn [m00 m11 fst snd]. rewrite adjoint_pauli_X, Cdiv_real by lra.
  do 2 f_equal. unfold RtoC. apply C_eq; lra.
Qed.

Lemma framed_diagonal_identity :
  single_qubit_op_to_framed_phase_form diagonal_eig identity_matrix
  = (identity_matrix, RtoC 1, RtoC 1).
Proof.
  unfold single_qubit_op_to_framed_phase_form, diagonal_eig, identity_matrix.
  cbn [m00 m11 fst snd]. rewrite adjoint_I2, Cdiv_real by lra.
  do 2 f_equal. unfold RtoC. apply C_eq; lra.
Qed.

Lemma Cmod_minus_2 : Cmod (RtoC (-1) - RtoC 1) = 2.
Proof. rewrite Cmod_real_minus_1, Rabs_left; lra. Qed.

Lemma Cmod_zero : Cmod (RtoC 1 - RtoC 1) = 0.
Proof. rewrite Cmod_real_minus_1. replace (1 - 1) with 0 by ring. apply Rabs_R0. Qed.

(** The angles of the bit flip, [(pi, pi/2, 0)], give it back. *)
Lemma zyz_angles_of_unitary_witness :
  unitary pauli_X
  /\ up_to_phase pauli_X
       (dot (_phase_matrix 0) (dot (_rotation_matrix (PI / 2)) (_phase_matrix PI))).
Proof.
  split; [exact unitary_pauli_X |].
  pose proof (zyz_angles_of_unitary pauli_X unitary_pauli_X) as H.
  rewrite angles_pauli_X in H. exact H.
Defined.

(** The bit flip is unitary and is reconstructed at tolerance 0. *)
Lemma synthesis_reconstructs_matrix_witness :
  unitary pauli_X
  /\ up_to_phase
       (circuit_matrix native_matrix
          (single_qubit_matrix_to_native_gates turns_bound pauli_X 0))
       pauli_X.
Proof.
  split; [exact unitary_pauli_X |].
  exact (synthesis_reconstructs_matrix turns_bound native_matrix native_matrix_semantics
           turns_bound_sound pauli_X unitary_pauli_X).
Defined.

(** The controlled phase flip, bordered by the half turn that the swapped
    eigenvectors ask for, with a kickback on the control. *)
Lemma controlled_op_sequence_witness :
  Cmod (RtoC (-1) - RtoC 1) > 0
  /\ controlled_op_to_native_gates turns_bound swapped_eig 0%nat 1%nat pauli_Z 0
     = Returns
         [on (ops.Native (ops.XYGate 0.5 (-0.5))) [1%nat];
          on (ops.Pow ops.CZ (phase (RtoC (-1)) / PI)) [0%nat; 1%nat];
          on (ops.Pow ops.Z (phase (RtoC (-1)) / PI)) [0%nat];
          on (ops.Inverse (ops.Native (ops.XYGate 0.5 (-0.5)))) [1%nat]].
Proof.
  assert (Hz : Cmod (RtoC (-1) - RtoC 1) > 0) by (rewrite Cmod_minus_2; lra).
  split; [exact Hz |].
  pose proof (controlled_op_sequence turns_bound swapped_eig 0%nat 1%nat
                pauli_Z 0) as H.
  rewrite framed_swapped_pauli_Z in H. specialize (H Hz). cbv zeta in H.
  rewrite bit_flip_gates in H.
  - assert (Hk : Rgtb (Cmod (RtoC (-1) - RtoC 1)) 0 = true)
      by (apply Rgtb_true; exact Hz).
    rewrite Hk in H. exact H.
  - lra.
  - cbn [turns_bound]. rewrite Rabs_neg_half. lra.
  - cbn [turns_bound]. rewrite Rabs_neg_half. lra.
Defined.

(** The controlled phase flip with identity eigenvectors: no border gate, no
    kickback, the CZ power alone. *)
Lemma controlled_op_empty_border_witness :
  Cmod (RtoC (-1) - RtoC 1) > 0
  /\ single_qubit_matrix_to_native_gates turns_bound identity_matrix 0 = []
  /\ controlled_op_to_native_gates turns_bound diagonal_eig 0%nat 1%nat pauli_Z 0
     = Returns [on (ops.Pow ops.CZ (phase (RtoC (-1)) / PI)) [0%nat; 1%nat]].
Proof.
  assert (Hz : Cmod (RtoC (-1) - RtoC 1) > 0) by (rewrite Cmod_minus_2; lra).
  assert (He : single_qubit_matrix_to_native_gates turns_bound identity_matrix 0
               = []) by (apply identity_gates; lra).
  split; [exact Hz |]. split; [exact He |].
  destruct (controlled_op_empty_border turns_bound diagonal_eig
              0%nat 1%nat pauli_Z 0) as [_ H].
  rewrite framed_diagonal_pauli_Z in H. specialize (H Hz He).
  assert (Hk : Rgtb (Cmod (RtoC 1 - RtoC 1)) 0 = false)
    by (apply Rgtb_false; rewrite Cmod_zero; lra).
  rewrite Hk in H. exact H.
Defined.

(** The bit flip at tolerance 1e-8 takes the absorbing path; [[0, -1], [1, 0]]
    at tolerance 0 loses its phase gate and keeps its half-turn XY gate. *)
Lemma half_turn_absorption_witness :
  (length (filter (kept turns_bound 1e-8) (candidates pauli_X)) = 2%nat
   /\ Rabs (xy_turn_of pauli_X) >= 0.5 - 1e-8
   /\ single_qubit_matrix_to_native_gates turns_bound pauli_X 1e-8
      = [ops.XYGate 0.5 (xy_phase_turn_of pauli_X + total_z_turn_of pauli_X / 2)])
  /\
  (kept turns_bound 0 (ops.ZGate (total_z_turn_of minus_iY)) = false
   /\ Rabs (xy_turn_of minus_iY) >= 0.5 - 0
   /\ single_qubit_matrix_to_native_gates turns_bound minus_iY 0
      = filter (kept turns_bound 0)
          [ops.XYGate (xy_turn_of minus_iY) (xy_phase_turn_of minus_iY)]).
Proof.
  assert (HX : candidates pauli_X = [ops.XYGate (-0.5) (-0.25); ops.ZGate (-0.5)])
    by (apply candidates_at, turns_pauli_X).
  assert (Hlen : length (filter (kept turns_bound 1e-8) (candidates pauli_X))
                 = 2%nat).
  { rewrite HX. cbn [filter]. unfold kept. cbn [turns_bound].
    assert (H2 : Rgtb (Rabs (-0.5) * 3.5) 1e-8 = true)
      by (apply Rgtb_true; rewrite Rabs_neg_half; lra).
    rewrite H2. reflexivity. }
  assert (HtX : xy_turn_of pauli_X = -0.5)
    by (unfold xy_turn_of; rewrite turns_pauli_X; reflexivity).
  assert (Habs : Rabs (xy_turn_of pauli_X) >= 0.5 - 1e-8)
    by (rewrite HtX, Rabs_neg_half; lra).
  assert (HzY : total_z_turn_of minus_iY = 0)
    by (unfold total_z_turn_of; rewrite turns_minus_iY; reflexivity).
  assert (HtY : xy_turn_of minus_iY = -0.5)
    by (unfold xy_turn_of; rewrite turns_minus_iY; reflexivity).
  assert (Hk : kept turns_bound 0 (ops.ZGate (total_z_turn_of minus_iY)) = false).
  { rewrite HzY. unfold kept. cbn [turns_bound].
    apply Rgtb_false. rewrite Rabs_R0. lra. }
  split.
  - split; [exact Hlen |]. split; [exact Habs |].
    exact (proj1 (half_turn_absorption_after_filtering turns_bound pauli_X 1e-8)
             Hlen Habs).
  - split; [exact Hk |]. split; [rewrite HtY, Rabs_neg_half; lra |].
    exact (proj1 (proj2 (half_turn_absorption_after_filtering turns_bound
                           minus_iY 0) Hk)).
Defined.

(** The identity matrix at tolerance -1 keeps both candidates. *)
Lemma no_elision_below_zero_witness :
  nonnegative_bound turns_bound
  /\ filter (kept turns_bound (-1)) (candidates identity_matrix)
     = candidates identity_matrix.
Proof.
  split; [exact turns_bound_nonnegative |].
  apply (proj1 (no_elision_below_zero turns_bound identity_matrix (-1)
                  turns_bound_nonnegative)).
  lra.
Defined.

(** The phase flip at tolerance 0 (its XY candidate has bound 0), and the
    controlled identity at tolerance 0 ([|z_phase - 1| = 0]). *)
Lemma tolerance_boundaries_witness :
  (In (ops.XYGate 0 (-0.25)) (candidates pauli_Z)
   /\ turns_bound (ops.XYGate 0 (-0.25)) = 0
   /\ kept turns_bound 0 (ops.XYGate 0 (-0.25)) = false
   /\ ~ In (ops.XYGate 0 (-0.25))
          (single_qubit_matrix_to_native_gates turns_bound pauli_Z 0))
  /\
  (Cmod (RtoC 1 - RtoC 1) = 0
   /\ controlled_op_to_native_gates turns_bound diagonal_eig 0%nat 1%nat
        identity_matrix 0 = Returns []).
Proof.
  pose proof (tolerance_boundaries turns_bound diagonal_eig pauli_Z
                (ops.XYGate 0 (-0.25)) 0%nat 1%nat identity_matrix 0)
    as [H1 H2].
  assert (Hin : In (ops.XYGate 0 (-0.25)) (candidates pauli_Z)).
  { rewrite (candidates_at _ _ _ _ turns_pauli_Z). left. reflexivity. }
  assert (Hb : turns_bound (ops.XYGate 0 (-0.25)) = 0)
    by (cbn [turns_bound]; rewrite Rabs_R0; lra).
  split.
  - split; [exact Hin |]. split; [exact Hb |]. exact (H1 Hin Hb).
  - split; [exact Cmod_zero |].
    apply H2. rewrite framed_diagonal_identity. cbn [fst snd]. exact Cmod_zero.
Defined.

(** * Further properties of the module *)

(** ** Whole turns *)

(** X3: [_signed_mod_1] differs from its argument by a whole number, and
    whole numbers added to the argument do not change it. *)
Theorem signed_mod_1_whole_turns (x : R) (k : Z) :
  _signed_mod_1 (x + IZR k) = _signed_mod_1 x
  /\ exists n : Z, _signed_mod_1 x = x - IZR n.
Proof.
  split; [| apply signed_mod_1_integer_shift].
  destruct (signed_mod_1_integer_shift x) as [n Hn].
  pose proof (_signed_mod_1_range x) as Hr.
  rewrite (signed_mod_1_shift (x + IZR k) (n + k)); rewrite ?plus_IZR; lra.
Qed.

(** X4: no turn is negligible at a tolerance of zero or less, every turn is
    negligible at a tolerance above a half, and a turn that is negligible at
    one tolerance is negligible at every larger one. *)
Theorem negligible_turn_tolerances (turns t1 t2 : R) :
  (t1 <= 0 -> is_negligible_turn turns t1 = false)
  /\ (0.5 < t1 -> is_negligible_turn turns t1 = true)
  /\ (t1 <= t2 -> is_negligible_turn turns t1 = true ->
      is_negligible_turn turns t2 = true).
Proof.
  unfold is_negligible_turn.
  pose proof (Rabs_pos (_signed_mod_1 turns)) as Hpos.
  assert (Hhalf : Rabs (_signed_mod_1 turns) <= 0.5).
  { pose proof (_signed_mod_1_range turns) as Hr.
    unfold Rabs. destruct (Rcase_abs _); lra. }
  repeat split.
  - intros Ht. apply Rltb_false. lra.
  - intros Ht. apply Rltb_true. lra.
  - intros Hle H1. apply Rltb_true in H1. apply Rltb_true. lra.
Qed.

Lemma negligible_turn_tolerances_witness :
  is_negligible_turn 0.25 0 = false
  /\ is_negligible_turn 0.25 1 = true
  /\ is_negligible_turn 0.25 2 = true.
Proof.
  assert (H0 : 0 <= 0) by lra.
  assert (H1 : 0.5 < 1) by lra.
  assert (H2 : 1 <= 2) by lra.
  pose proof (proj1 (proj2 (negligible_turn_tolerances 0.25 1 2)) H1) as Hone.
  split; [exact (proj1 (negligible_turn_tolerances 0.25 0 0) H0) |].
  split; [exact Hone |].
  exact (proj2 (proj2 (negligible_turn_tolerances 0.25 1 2)) H2 Hone).
Defined.

(** ** The two helper matrices *)

(** X5: phase matrices are unitary, compose by adding their angles, start
    at the identity and are undone by the opposite angle. *)
Theorem phase_matrix_group (a b : R) :
  dot (_phase_matrix a) (_phase_matrix b) = _phase_matrix (a + b)
  /\ _phase_matrix 0 = I2
  /\ dot (_phase_matrix (- a)) (_phase_matrix a) = I2
  /\ unitary (_phase_matrix a).
Proof.
  pose proof (cos2_sin2 a) as Ha.
  unfold unitary, adjoint, dot, _phase_matrix, I2, Cexp.
  cbn [m00 m01 m10 m11].
  rewrite cos_plus, sin_plus, cos_neg, sin_neg, cos_0, sin_0.
  unfold Cminus; unfold Cplus, Copp, Cmult, Cconj, RtoC. cbn [fst snd].
  repeat split; apply mat2_eq; apply C_eq; nsatz.
Qed.

(** X6: rotation matrices are unitary, compose by adding their angles, start
    at the identity and are undone by the opposite angle. *)
Theorem rotation_matrix_group (a b : R) :
  dot (_rotation_matrix a) (_rotation_matrix b) = _rotation_matrix (a + b)
  /\ _rotation_matrix 0 = I2
  /\ dot (_rotation_matrix (- a)) (_rotation_matrix a) = I2
  /\ unitary (_rotation_matrix a).
Proof.
  pose proof (cos2_sin2 a) as Ha.
  unfold unitary, adjoint, dot, _rotation_matrix, I2. cbv zeta.
  cbn [m00 m01 m10 m11].
  rewrite cos_plus, sin_plus, cos_neg, sin_neg, cos_0, sin_0.
  unfold Cminus; unfold Cplus, Copp, Cmult, Cconj, RtoC. cbn [fst snd].
  repeat split; apply mat2_eq; apply C_eq; nsatz.
Qed.










Lemma unit_phase_cancels (g z w : C) :
  Cnorm2 g = 1 -> ((g * z) * Cconj (g * w))%C = (z * Cconj w)%C.
Proof.
  destruct g as [g1 g2], z as [z1 z2], w as [w1 w2].
  unfold Cnorm2, Cmult, Cconj. cbn [fst snd]. intros Hg.
  apply C_eq; nsatz.
Qed.

Lemma Cmod_unit_mult (g z : C) : Cnorm2 g = 1 -> Cmod (g * z) = Cmod z.
Proof.
  intros Hg. unfold Cmod. rewrite Cnorm2_mult, Hg, Rmult_1_l. reflexivity.
Qed.

(** Over the reals the three angles do not see a unit factor on the matrix.
    (Computed in floating point, the angles of [mat] and of its multiple may
    come out a whole turn apart, which [_signed_mod_1] takes away in the
    turns.) *)
Lemma angles_ignore_global_phase (g : C) (mat : mat2) :
  Cnorm2 g = 1 ->
  _deconstruct_single_qubit_matrix_into_angles (scale g mat)
  = _deconstruct_single_qubit_matrix_into_angles mat.
Proof.
  intros Hg. rewrite !angles_unfold. cbv zeta.
  destruct mat as [a b c d]. unfold scale. cbn [m00 m01 m10 m11].
  rewrite !(unit_phase_cancels g) by exact Hg.
  set (rp := phase (b * Cconj a) + PI).
  set (bp := phase (c * Cconj a)).
  rewrite !Cmod_Cexp_mult, !Cmod_unit_mult by exact Hg.
  set (rot := atan2 (Cmod c) (Cmod a)).
  replace (RtoC (cos rot) * (Cexp (- bp) * (g * d * Cexp (- rp)))
           - RtoC (sin rot) * (g * b * Cexp (- rp)))%C
    with (g * (RtoC (cos rot) * (Cexp (- bp) * (d * Cexp (- rp)))
               - RtoC (sin rot) * (b * Cexp (- rp))))%C
    by (destruct g, b, d; c_ring).
  replace (RtoC (cos rot) * (g * a) + RtoC (sin rot) * (Cexp (- bp) * (g * c)))%C
    with (g * (RtoC (cos rot) * a + RtoC (sin rot) * (Cexp (- bp) * c)))%C
    by (destruct g, a, c; c_ring).
  rewrite (unit_phase_cancels g) by exact Hg.
  reflexivity.
Qed.

Lemma turns_ignore_global_phase (g : C) (mat : mat2) :
  Cnorm2 g = 1 ->
  _deconstruct_single_qubit_matrix_into_gate_turns (scale g mat)
  = _deconstruct_single_qubit_matrix_into_gate_turns mat.
Proof.
  intros Hg. unfold _deconstruct_single_qubit_matrix_into_gate_turns.
  rewrite angles_ignore_global_phase by exact Hg. reflexivity.
Qed.

(** X10: a global phase on the matrix changes neither the gate turns nor the
    gates ("ignoring global phase"), over exact real arithmetic. *)
Theorem synthesis_ignores_global_phase tdb (g : C) (mat : mat2) (tolerance : R) :
  Cnorm2 g = 1 ->
  _deconstruct_single_qubit_matrix_into_gate_turns (scale g mat)
  = _deconstruct_single_qubit_matrix_into_gate_turns mat
  /\ single_qubit_matrix_to_native_gates tdb (scale g mat) tolerance
     = single_qubit_matrix_to_native_gates tdb mat tolerance.
Proof.
  intros Hg. split; [apply turns_ignore_global_phase, Hg |].
  unfold single_qubit_matrix_to_native_gates.
  rewrite turns_ignore_global_phase by exact Hg. reflexivity.
Qed.

Lemma synthesis_ignores_global_phase_witness :
  Cnorm2 Ci = 1
  /\ _deconstruct_single_qubit_matrix_into_gate_turns (scale Ci pauli_X)
     = _deconstruct_single_qubit_matrix_into_gate_turns pauli_X
  /\ single_qubit_matrix_to_native_gates turns_bound (scale Ci pauli_X) 0
     = single_qubit_matrix_to_native_gates turns_bound pauli_X 0.
Proof.
  assert (H : Cnorm2 Ci = 1) by (unfold Cnorm2, Ci; cbn [fst snd]; lra).
  split; [exact H |].
  exact (synthesis_ignores_global_phase turns_bound Ci pauli_X 0 H).
Defined.

(** ** The shape of the single-qubit result *)

Lemma result_shape tdb (mat : mat2) (tolerance : R) :
  let result := single_qubit_matrix_to_native_gates tdb mat tolerance in
  (result = []
   \/ (exists t a, result = [ops.XYGate t a])
   \/ (exists z, result = [ops.ZGate z])
   \/ (exists t a z, result = [ops.XYGate t a; ops.ZGate z]))
  /\ (drop_trailing_phase result = []
      \/ exists t a, drop_trailing_phase result = [ops.XYGate t a]).
Proof.
  cbv zeta. rewrite single_qubit_unfold. unfold candidates. cbn [filter].
  destruct (kept tdb tolerance (ops.XYGate _ _));
    destruct (kept tdb tolerance (ops.ZGate _));
    cbn [length Nat.eqb andb];
    try destruct (Rgeb _ _);
    (split;
     [ eauto 10
     | cbn [drop_trailing_phase rev app]; eauto 10 ]).
Qed.

Lemma result_length tdb (mat : mat2) (tolerance : R) :
  (length (single_qubit_matrix_to_native_gates tdb mat tolerance) <= 2)%nat.
Proof.
  destruct (proj1 (result_shape tdb mat tolerance))
    as [-> | [(t & a & ->) | [(z & ->) | (t & a & z & ->)]]]; cbn; lia.
Qed.

(** X11: the result is at most one XY gate followed by at most one Z gate,
    so without a trailing Z gate at most one XY gate is left. *)
Theorem single_qubit_result_shape tdb (mat : mat2) (tolerance : R) :
  let result := single_qubit_matrix_to_native_gates tdb mat tolerance in
  (result = []
   \/ (exists t a, result = [ops.XYGate t a])
   \/ (exists z, result = [ops.ZGate z])
   \/ (exists t a z, result = [ops.XYGate t a; ops.ZGate z]))
  /\ (drop_trailing_phase result = []
      \/ exists t a, drop_trailing_phase result = [ops.XYGate t a]).
Proof. exact (result_shape tdb mat tolerance). Qed.

Lemma kept_antitone tdb (t1 t2 : R) (g : ops.NativeGate) :
  t1 <= t2 -> kept tdb t2 g = true -> kept tdb t1 g = true.
Proof.
  unfold kept. rewrite !Rgtb_true. lra.
Qed.

(** X12: a larger tolerance never gives more gates. *)
Theorem larger_tolerance_no_more_gates tdb (mat : mat2) (t1 t2 : R) :
  t1 <= t2 ->
  (length (single_qubit_matrix_to_native_gates tdb mat t2)
   <= length (single_qubit_matrix_to_native_gates tdb mat t1))%nat.
Proof.
  intros Hle. rewrite !single_qubit_unfold. unfold candidates. cbn [filter].
  pose proof (kept_antitone tdb t1 t2
                (ops.XYGate (xy_turn_of mat) (xy_phase_turn_of mat)) Hle) as Hx.
  pose proof (kept_antitone tdb t1 t2 (ops.ZGate (total_z_turn_of mat)) Hle)
    as Hz.
  destruct (kept tdb t2 (ops.XYGate _ _)) eqn:Kx2;
    destruct (kept tdb t2 (ops.ZGate _)) eqn:Kz2;
    try rewrite (Hx eq_refl); try rewrite (Hz eq_refl);
    destruct (kept tdb t1 (ops.XYGate _ _)) eqn:Kx1;
    destruct (kept tdb t1 (ops.ZGate _)) eqn:Kz1;
    try discriminate;
    cbn [length Nat.eqb andb];
    destruct (Rgeb (Rabs (xy_turn_of mat)) (0.5 - t1)) eqn:G1;
    destruct (Rgeb (Rabs (xy_turn_of mat)) (0.5 - t2)) eqn:G2;
    cbn [length]; try lia.
  (* both kept at both tolerances, absorbed at [t1] only *)
  apply Rgeb_true in G1. apply Rgeb_false in G2. lra.
Qed.

Lemma larger_tolerance_witness :
  0 <= 1e-8
  /\ (length (single_qubit_matrix_to_native_gates turns_bound pauli_X 1e-8)
      <= length (single_qubit_matrix_to_native_gates turns_bound pauli_X 0))%nat.
Proof.
  assert (H : 0 <= 1e-8) by lra.
  split; [exact H |].
  exact (larger_tolerance_no_more_gates turns_bound pauli_X 0 1e-8 H).
Defined.

(** ** The controlled operation *)

(** X13: the controlled synthesis returns at most four operations: at most
    one XY gate on the target, the CZ power, at most one Z power on the
    control and at most one inverse XY gate on the target; every operation
    acts on the control and the target only. *)
Theorem controlled_op_at_most_four {QubitId : Type} tdb eig
  (control target : QubitId) (operation : mat2) (tolerance : R) :
  exists operations,
    controlled_op_to_native_gates tdb eig control target operation tolerance
    = Returns operations
    /\ (length operations <= 4)%nat
    /\ Forall (fun o => incl (op_qubits o) [control; target]) operations.
Proof.
  rewrite controlled_op_unfold.
  destruct (single_qubit_op_to_framed_phase_form eig operation)
    as [[u z_phase] global_phase].
  destruct (Rleb (Cmod (z_phase - RtoC 1)) tolerance).
  { exists []. repeat split; [cbn; lia | constructor]. }
  cbv zeta. eexists. split; [reflexivity |].
  assert (Hc : incl [control] [control; target])
    by (intros q [<- | []]; left; reflexivity).
  assert (Ht : incl [target] [control; target])
    by (intros q [<- | []]; right; left; reflexivity).
  assert (Hct : incl [control; target] [control; target]) by apply incl_refl.
  destruct (proj2 (result_shape tdb u tolerance))
    as [-> | (t & a & ->)];
    destruct (Rgtb (Cmod (global_phase - RtoC 1)) tolerance);
    cbn [map rev app length inverse_op op_gate op_qubits];
    (split;
     [ lia
     | unfold inverse_op;
       repeat (apply Forall_cons; [cbn [op_qubits]; assumption |]);
       apply Forall_nil ]).
Qed.

Lemma dot_assoc (a b c : mat2) : dot (dot a b) c = dot a (dot b c).
Proof.
  destruct a as [a1 a2 a3 a4], b as [b1 b2 b3 b4], c as [c1 c2 c3 c4].
  split_C. unfold dot. cbn [m00 m01 m10 m11]. apply mat2_eq; c_ring.
Qed.

Lemma adjoint_involutive (a : mat2) : adjoint (adjoint a) = a.
Proof.
  destruct a as [a b c d]. split_C. unfold adjoint, Cconj.
  cbn [m00 m01 m10 m11 fst snd]. apply mat2_eq; apply C_eq; ring.
Qed.

Lemma diag2_factor (v0 v1 : C) :
  Cnorm2 v0 <> 0 -> diag2 v0 v1 = scale v0 (diag2 (RtoC 1) (v1 / v0)).
Proof.
  intros H. destruct v0 as [x y], v1 as [x' y'].
  unfold diag2, scale, Cdiv, Cinv, Cmult, Cnorm2, RtoC in *.
  cbn [m00 m01 m10 m11 fst snd] in *.
  apply mat2_eq; apply C_eq; field; exact H.
Qed.

(** X15: when [eig] returns eigenpairs of the matrix with unitary
    eigenvectors and a first eigenvalue that is not zero, the framed phase
    form gives the matrix back: [M = g * (U^dagger . diag(1, r) . U)]. *)
Theorem framed_phase_form_reconstructs eig (mat : mat2) :
  let '(vals, vecs) := eig mat in
  dot mat vecs = dot vecs (diag2 (fst vals) (snd vals)) ->
  unitary vecs ->
  Cnorm2 (fst vals) <> 0 ->
  let '(u, r, g) := single_qubit_op_to_framed_phase_form eig mat in
  mat = scale g (dot (adjoint u) (dot (diag2 (RtoC 1) r) u)).
Proof.
  unfold single_qubit_op_to_framed_phase_form.
  destruct (eig mat) as [[v0 v1] vecs]. cbn [fst snd].
  intros Heig Hu Hnz.
  rewrite adjoint_involutive.
  rewrite <- dot_scale_r, <- dot_scale_l, <- diag2_factor by exact Hnz.
  rewrite <- dot_assoc, <- Heig, dot_assoc.
  unfold unitary in Hu. rewrite Hu. symmetry. apply dot_I2_r.
Qed.

Lemma unitary_I2 : unitary I2.
Proof.
  unfold unitary, I2, dot, adjoint. cbn [m00 m01 m10 m11]. apply mat2_eq; c_ring.
Qed.

Lemma framed_phase_form_witness :
  dot pauli_Z I2 = dot I2 (diag2 (m00 pauli_Z) (m11 pauli_Z))
  /\ unitary I2
  /\ Cnorm2 (m00 pauli_Z) <> 0
  /\ pauli_Z
     = scale (RtoC 1)
         (dot (adjoint identity_matrix)
              (dot (diag2 (RtoC 1) (RtoC (-1))) identity_matrix)).
Proof.
  assert (H1 : dot pauli_Z I2 = dot I2 (diag2 (m00 pauli_Z) (m11 pauli_Z))).
  { rewrite dot_I2_r, dot_I2_l. reflexivity. }
  assert (H3 : Cnorm2 (m00 pauli_Z) <> 0).
  { unfold pauli_Z, Cnorm2, RtoC. cbn [m00 fst snd]. lra. }
  split; [exact H1 |]. split; [exact unitary_I2 |]. split; [exact H3 |].
  pose proof (framed_phase_form_reconstructs diagonal_eig pauli_Z) as H.
  unfold diagonal_eig in H at 1. cbn [fst snd] in H.
  specialize (H H1 unitary_I2 H3).
  rewrite framed_diagonal_pauli_Z in H. exact H.
Defined.

(** ** Counting the operations of the two-qubit synthesis *)

Lemma two_qubit_parts {QubitId : Type} tdb kak_decomposition
  (q0 q1 : QubitId) (mat : mat4) (tolerance : R) g a1 a0 x y z b1 b0 :
  kak_decomposition mat tolerance = (g, (a1, a0), (x, y, z), (b1, b0)) ->
  two_qubit_matrix_to_native_gates tdb kak_decomposition q0 q1 mat tolerance
  = (synthesis_on tdb tolerance b1 q1 ++ synthesis_on tdb tolerance b0 q0)
    ++ parity_interaction_spec q0 q1 tolerance x (Some (ops.Pow ops.Y (-0.5)))
    ++ parity_interaction_spec q0 q1 tolerance y (Some (ops.Pow ops.X 0.5))
    ++ parity_interaction_spec q0 q1 tolerance z None
    ++ (synthesis_on tdb tolerance a1 q1 ++ synthesis_on tdb tolerance a0 q0).
Proof.
  intros Hk. unfold two_qubit_matrix_to_native_gates. rewrite Hk. cbv zeta.
  rewrite !flatten_cons, flatten_nil, !parity_interaction_flat,
    !do_single_on_flat, !app_nil_r.
  reflexivity.
Qed.

Section Counting.

Context {QubitId : Type}.
Variable tdb : ops.NativeGate -> R.
Variables q0 q1 : QubitId.
Variable tolerance : R.

Let on_pair (o : Operation QubitId) : Prop := incl (op_qubits o) [q0; q1].

Lemma synthesis_on_length (u : mat2) (q : QubitId) :
  (length (synthesis_on tdb tolerance u q) <= 2)%nat.
Proof. unfold synthesis_on. rewrite length_map. apply result_length. Qed.

Lemma synthesis_on_single (u : mat2) (q : QubitId) :
  filter is_two_qubit (synthesis_on tdb tolerance u q) = [].
Proof.
  unfold synthesis_on.
  induction (single_qubit_matrix_to_native_gates tdb u tolerance)
    as [| g l IH]; [reflexivity |].
  cbn [map filter]. exact IH.
Qed.

Lemma synthesis_on_qubits (u : mat2) (q : QubitId) :
  In q [q0; q1] -> Forall on_pair (synthesis_on tdb tolerance u q).
Proof.
  intros Hq. unfold synthesis_on. apply Forall_map, Forall_forall.
  intros g _. unfold on_pair. cbn [op_qubits]. intros q' [<- | []]. exact Hq.
Qed.

Lemma parity_length (rads : R) (framing : option ops.Gate) :
  (length (parity_interaction_spec q0 q1 tolerance rads framing) <= 7)%nat.
Proof.
  unfold parity_interaction_spec.
  destruct (Rltb (Rabs rads) tolerance); [cbn; lia |].
  destruct framing; cbn; lia.
Qed.

Lemma parity_length_unframed (rads : R) :
  (length (parity_interaction_spec q0 q1 tolerance rads None) <= 3)%nat.
Proof.
  unfold parity_interaction_spec.
  destruct (Rltb (Rabs rads) tolerance); cbn; lia.
Qed.

Lemma parity_two_qubit (rads : R) (framing : option ops.Gate) :
  length (filter is_two_qubit
            (parity_interaction_spec q0 q1 tolerance rads framing))
  = interacting tolerance rads.
Proof.
  unfold parity_interaction_spec, interacting.
  destruct (Rltb (Rabs rads) tolerance); [reflexivity |].
  destruct framing; reflexivity.
Qed.

Lemma parity_qubits (rads : R) (framing : option ops.Gate) :
  Forall on_pair (parity_interaction_spec q0 q1 tolerance rads framing).
Proof.
  assert (H0 : incl [q0] [q0; q1]) by (intros q [<- | []]; left; reflexivity).
  assert (H1 : incl [q1] [q0; q1])
    by (intros q [<- | []]; right; left; reflexivity).
  assert (H01 : incl [q0; q1] [q0; q1]) by apply incl_refl.
  unfold parity_interaction_spec.
  destruct (Rltb (Rabs rads) tolerance); [apply Forall_nil |].
  destruct framing; cbn [app];
    repeat (apply Forall_cons; [unfold on_pair; cbn [op_qubits]; assumption |]);
    apply Forall_nil.
Qed.

End Counting.

Lemma two_qubit_counts {QubitId : Type} tdb kak_decomposition
  (q0 q1 : QubitId) (mat : mat4) (tolerance : R) :
  let '(_, _, (x, y, z), _) := kak_decomposition mat tolerance in
  let result :=
    two_qubit_matrix_to_native_gates tdb kak_decomposition q0 q1 mat tolerance in
  length (filter is_two_qubit result)
  = (interacting tolerance x + interacting tolerance y
     + interacting tolerance z)%nat
  /\ (length result <= 25)%nat
  /\ Forall (fun o => incl (op_qubits o) [q0; q1]) result.
Proof.
  destruct (kak_decomposition mat tolerance)
    as [[[g [a1 a0]] [[x y] z]] [b1 b0]] eqn:Hk.
  cbv zeta. rewrite (two_qubit_parts _ _ _ _ _ _ _ _ _ _ _ _ _ _ Hk).
  split; [| split].
  - rewrite !filter_app, !synthesis_on_single, !length_app,
      !parity_two_qubit. cbn [length]. lia.
  - rewrite !length_app.
    pose proof (synthesis_on_length tdb tolerance b1 q1).
    pose proof (synthesis_on_length tdb tolerance b0 q0).
    pose proof (synthesis_on_length tdb tolerance a1 q1).
    pose proof (synthesis_on_length tdb tolerance a0 q0).
    pose proof (parity_length q0 q1 tolerance x (Some (ops.Pow ops.Y (-0.5)))).
    pose proof (parity_length q0 q1 tolerance y (Some (ops.Pow ops.X 0.5))).
    pose proof (parity_length_unframed q0 q1 tolerance z).
    lia.
  - assert (In0 : In q0 [q0; q1]) by (left; reflexivity).
    assert (In1 : In q1 [q0; q1]) by (right; left; reflexivity).
    repeat (apply Forall_app; split);
      try apply parity_qubits; apply synthesis_on_qubits; assumption.
Qed.

(** X16: the two-qubit synthesis has one two-qubit operation per interaction
    coefficient that is not below the tolerance, at most 25 operations in
    all, and every operation acts on [q0] and [q1] only. *)
Theorem two_qubit_operation_counts {QubitId : Type} tdb kak_decomposition
  (q0 q1 : QubitId) (mat : mat4) (tolerance : R) :
  let '(_, _, (x, y, z), _) := kak_decomposition mat tolerance in
  let result :=
    two_qubit_matrix_to_native_gates tdb kak_decomposition q0 q1 mat tolerance in
  length (filter is_two_qubit result)
  = (interacting tolerance x + interacting tolerance y
     + interacting tolerance z)%nat
  /\ (length result <= 25)%nat
  /\ Forall (fun o => incl (op_qubits o) [q0; q1]) result.
Proof.
  exact (two_qubit_counts tdb kak_decomposition q0 q1 mat tolerance).
Qed.

(** X17: when the three interaction coefficients are below the tolerance
    only the four single-qubit syntheses are left; at a tolerance that is not
    positive no interaction is ever dropped. *)
Theorem two_qubit_without_interaction {QubitId : Type} tdb kak_decomposition
  (q0 q1 : QubitId) (mat : mat4) (tolerance : R) :
  let '(_, (a1, a0), (x, y, z), (b1, b0)) := kak_decomposition mat tolerance in
  (Rabs x < tolerance -> Rabs y < tolerance -> Rabs z < tolerance ->
   two_qubit_matrix_to_native_gates tdb kak_decomposition q0 q1 mat tolerance
   = synthesis_on tdb tolerance b1 q1 ++ synthesis_on tdb tolerance b0 q0
     ++ synthesis_on tdb tolerance a1 q1 ++ synthesis_on tdb tolerance a0 q0)
  /\ (tolerance <= 0 ->
      length (filter is_two_qubit
                (two_qubit_matrix_to_native_gates tdb kak_decomposition
                   q0 q1 mat tolerance)) = 3%nat).
Proof.
  destruct (kak_decomposition mat tolerance)
    as [[[g [a1 a0]] [[x y] z]] [b1 b0]] eqn:Hk.
  split.
  - intros Hx Hy Hz.
    rewrite (two_qubit_parts _ _ _ _ _ _ _ _ _ _ _ _ _ _ Hk).
    unfold parity_interaction_spec.
    apply Rltb_true in Hx, Hy, Hz. rewrite Hx, Hy, Hz.
    cbn [app]. rewrite <- app_assoc. reflexivity.
  - intros Htol.
    pose proof (two_qubit_counts tdb kak_decomposition q0 q1 mat tolerance)
      as Hc.
    rewrite Hk in Hc. cbv zeta in Hc. destruct Hc as [Hc _]. rewrite Hc.
    unfold interacting.
    assert (H : forall r, Rltb (Rabs r) tolerance = false).
    { intros r. apply Rltb_false. pose proof (Rabs_pos r). lra. }
    rewrite !H. reflexivity.
Qed.

Lemma two_qubit_without_interaction_witness :
  Rabs 0 < 1e-8
  /\ two_qubit_matrix_to_native_gates turns_bound trivial_kak 0%nat 1%nat [] 1e-8
     = synthesis_on turns_bound 1e-8 identity_matrix 1%nat
       ++ synthesis_on turns_bound 1e-8 identity_matrix 0%nat
       ++ synthesis_on turns_bound 1e-8 identity_matrix 1%nat
       ++ synthesis_on turns_bound 1e-8 identity_matrix 0%nat.
Proof.
  assert (H : Rabs 0 < 1e-8) by (rewrite Rabs_R0; lra).
  split; [exact H |].
  exact (proj1 (two_qubit_without_interaction turns_bound trivial_kak
                  0%nat 1%nat [] 1e-8) H H H).
Defined.

